(** * The LDA kernel loop of the notebook [4b_LDA_kernel.ipynb]
    ([Tutorials/04_Density_Functional_Theory])

    The notebook's last code cell walks over the blocks of the DFT grid.  For
    each block it slices the collocation matrix, gathers the local part of the
    density matrix, contracts both into the density on the grid, calls the
    functional, adds the weighted energy density to [xc_e] and scatter-adds the
    symmetrised potential contribution into [V].

    The embedding keeps the cell's statements one for one.  Doubles are an
    abstract type [F] with the operations the cell uses ([0.0], [+], [*],
    [2.0], [0.5]); the laws of exact arithmetic are hypotheses of the theorems
    that need them, so a theorem that assumes none of them (or only the
    commutativity of [+]) also speaks about IEEE doubles.  NumPy arrays are
    dense row lists that carry their shape, index arrays carry their dtype,
    and NumPy's exceptions are an error monad: slices cut silently, fancy
    indexing checks dtype and bounds, [einsum] and the in-place add check
    extents up to broadcasting.  The two psi4 objects the loop calls into
    ([points_func] and [superfunc]) are parameters.

    The cell is written down twice.  [loop_body] passes the arrays by value
    and is what the statements about the numbers are proved on.  [exec_body]
    runs the same statements on a store of array objects with the names [D],
    [V] and [lD] bound to them, and keeps the memory an exception leaves
    behind; it is what the statements about what the cell writes, and about
    what it has written when it raises, are proved on.  The two agree as long
    as [D] and [V] are two objects ([exec_blocks_view]). *)

From Stdlib Require Import ZArith QArith Qcanon Ring PrimFloat.
From stdpp Require Import base list gmap.

Close Scope Qc_scope.
Close Scope Q_scope.

(** ** Exceptions *)

Inductive exn := IndexError | ValueError.

Inductive result (A : Type) : Type :=
| Ok (a : A)
| Raise (e : exn).
Arguments Ok {A} a.
Arguments Raise {A} e.

#[global] Instance result_ret : MRet result := fun A a => Ok a.
#[global] Instance result_bind : MBind result := fun A B f r =>
  match r with Ok a => f a | Raise e => Raise e end.
#[global] Instance result_fmap : FMap result := fun A B f r =>
  match r with Ok a => Ok (f a) | Raise e => Raise e end.

Definition is_Ok {A} (r : result A) : Prop :=
  match r with Ok _ => True | Raise _ => False end.

(** ** Index arrays *)

(** [np.array(l)] for a Python list [l] of ints is an integer array, except
    that the empty list, which has no element to take a type from, becomes
    an array of dtype float64. *)
Inductive dtype := int64 | float64.

Record index_array := IndexArray {
  ix_dtype : dtype;
  ix_data : list Z
}.

Definition np_array (l : list Z) : index_array :=
  IndexArray (match l with [] => float64 | _ :: _ => int64 end) l.

(** [lpos.shape[0]] *)
Definition shape0 (ix : index_array) : nat := length (ix_data ix).

(** An array used as an index must hold integers; for a float64 array,
    whatever its size, NumPy raises "IndexError: arrays used as indices must
    be of integer (or boolean) type". *)
Definition index_entries (ix : index_array) : result (list Z) :=
  match ix_dtype ix with
  | int64 => Ok (ix_data ix)
  | float64 => Raise IndexError
  end.

(** ** Scalars: the float operations of the cell *)

Class Scalar (F : Type) := {
  f_zero : F;              (* 0.0 *)
  f_add : F -> F -> F;     (* x + y *)
  f_mul : F -> F -> F;     (* x * y *)
  f_two : F;               (* 2.0 *)
  f_half : F               (* 0.5 *)
}.

Declare Scope F_scope.
Delimit Scope F_scope with F.
Notation "x + y" := (f_add x y) : F_scope.
Notation "x * y" := (f_mul x y) : F_scope.

(** Exact arithmetic: [F] is a commutative semiring in which [2.0 = 1 + 1]
    and [0.5 * 2.0 = 1]. *)
Record exact_arithmetic {F} `{Scalar F} (one : F) : Prop := {
  ea_semiring : semi_ring_theory f_zero one f_add f_mul eq;
  ea_two : f_two = (one + one)%F;
  ea_half : (f_half * f_two)%F = one
}.

(** An order compatible with the arithmetic, as far as the claims need it. *)
Record ordered_arithmetic {F} `{Scalar F} (le : F -> F -> Prop) : Prop := {
  oa_two : le f_zero f_two;
  oa_mul : forall a b, le f_zero a -> le f_zero b -> le f_zero (a * b)%F
}.

Section Arrays.
Context {F : Type} `{Scalar F}.

(** ** One- and two-dimensional arrays *)

(** A 1-D array is the list of its entries.  A 2-D array carries its shape,
    since an array with no rows still has a column count. *)
Record ndarray2 := Array2 {
  nrows : nat;
  ncols : nat;
  rows : list (list F)
}.

Definition wf2 (M : ndarray2) : Prop :=
  length (rows M) = nrows M /\ Forall (fun r => length r = ncols M) (rows M).

Definition get1 (v : list F) (i : nat) : F := default f_zero (v !! i).

Definition get2 (M : ndarray2) (i j : nat) : F :=
  default f_zero (rows M !! i ≫= fun r => r !! j).

Definition tabulate1 (n : nat) (f : nat -> F) : list F := f <$> seq 0 n.

Definition tabulate2 (nr nc : nat) (f : nat -> nat -> F) : ndarray2 :=
  Array2 nr nc ((fun i => (fun j => f i j) <$> seq 0 nc) <$> seq 0 nr).

(** The accumulation loop [acc = 0; for i in range(n): acc += f(i)]. *)
Fixpoint sum_upto (n : nat) (f : nat -> F) : F :=
  match n with
  | O => f_zero
  | S n' => (sum_upto n' f + f n')%F
  end.

(** ** Broadcasting *)

(** NumPy's rule for the extents that meet on one axis, in [einsum] (for the
    extents that carry the same subscript) as in arithmetic: an extent of 1
    stretches to the other one, two different extents of which none is 1 do
    not fit.  [broadcast_dim] merges one more extent [s] into the extent [d]
    found so far. *)
Definition broadcast_dim (d s : nat) : result nat :=
  if decide (s = 1) then Ok d
  else if decide (d = 1) then Ok s
  else if decide (d = s) then Ok d
  else Raise ValueError.

Fixpoint broadcast_dims_from (d : nat) (ds : list nat) : result nat :=
  match ds with
  | [] => Ok d
  | s :: ds' => d' ← broadcast_dim d s; broadcast_dims_from d' ds'
  end.

Definition broadcast_dims (ds : list nat) : result nat :=
  broadcast_dims_from 1 ds.

(** Reading along a stretched axis reads entry 0 again and again. *)
Definition bidx (d i : nat) : nat := if decide (d = 1) then 0 else i.

Definition bget1 (v : list F) (i : nat) : F := get1 v (bidx (length v) i).

Definition bget2 (M : ndarray2) (i j : nat) : F :=
  get2 M (bidx (nrows M) i) (bidx (ncols M) j).

(** ** The array operations of the cell *)

(** [np.zeros_like(D)] *)
Definition zeros_like (M : ndarray2) : ndarray2 :=
  tabulate2 (nrows M) (ncols M) (fun _ _ => f_zero).

(** [v[:n]]: a slice bound beyond the end is cut to the end, silently. *)
Definition slice1 (v : list F) (n : nat) : list F := take n v.

(** [M[:r, :c]] *)
Definition slice2 (M : ndarray2) (r c : nat) : ndarray2 :=
  Array2 (r `min` nrows M) (c `min` ncols M) (take c <$> take r (rows M)).

(** An integer index against an axis of extent [n]: negative indices count
    from the end, everything outside [-n, n) is an [IndexError]. *)
Definition normalize_index (n : nat) (i : Z) : result nat :=
  if decide (0 <= i < Z.of_nat n)%Z then Ok (Z.to_nat i)
  else if decide (- Z.of_nat n <= i < 0)%Z then Ok (Z.to_nat (i + Z.of_nat n))
  else Raise IndexError.

(** [M[(lpos[:, None], lpos)]]: the index arrays are checked for their dtype
    and against the two axes, then entry [(a, b)] of the fresh result is
    [M[lpos[a], lpos[b]]]. *)
Definition getitem_outer (M : ndarray2) (lpos : index_array)
  : result ndarray2 :=
  l ← index_entries lpos;
  rs ← mapM (normalize_index (nrows M)) l;
  cs ← mapM (normalize_index (ncols M)) l;
  Ok (Array2 (length rs) (length cs)
        ((fun r => (fun c => get2 M r c) <$> cs) <$> rs)).

(** [c * v] and [c * M] for a scalar [c]. *)
Definition scale1 (c : F) (v : list F) : list F := (fun x => c * x)%F <$> v.

Definition scale2 (c : F) (M : ndarray2) : ndarray2 :=
  Array2 (nrows M) (ncols M) (scale1 c <$> rows M).

(** [M.T] *)
Definition transpose (M : ndarray2) : ndarray2 :=
  tabulate2 (ncols M) (nrows M) (fun i j => get2 M j i).

(** [A + B], broadcast. *)
Definition add2 (A B : ndarray2) : result ndarray2 :=
  r ← broadcast_dims [nrows A; nrows B];
  c ← broadcast_dims [ncols A; ncols B];
  Ok (tabulate2 r c (fun i j => bget2 A i j + bget2 B i j)%F).

(** [np.einsum('pm,mn,pn->p', A, B, C)].  The sums over [m] and [n] are
    written as nested accumulation loops.  The order in which NumPy adds the
    terms matters to no theorem below; the one statement that rounds, the
    example of a negative density in doubles, has four terms whose sum is
    negative in every order. *)
Definition einsum_pm_mn_pn_p (A B C : ndarray2) : result (list F) :=
  P ← broadcast_dims [nrows A; nrows C];
  M ← broadcast_dims [ncols A; nrows B];
  N ← broadcast_dims [ncols B; ncols C];
  Ok (tabulate1 P (fun p =>
        sum_upto M (fun m =>
          sum_upto N (fun n =>
            bget2 A p m * bget2 B m n * bget2 C p n)%F))).

(** [np.einsum('a,a->', u, v)] *)
Definition einsum_a_a (u v : list F) : result F :=
  n ← broadcast_dims [length u; length v];
  Ok (sum_upto n (fun a => bget1 u a * bget1 v a)%F).

(** [np.einsum('pb,p,p,pa->ab', A, u, v, C)] *)
Definition einsum_pb_p_p_pa_ab (A : ndarray2) (u v : list F) (C : ndarray2)
  : result ndarray2 :=
  P ← broadcast_dims [nrows A; length u; length v; nrows C];
  Ok (tabulate2 (ncols C) (ncols A) (fun a b =>
        sum_upto P (fun p =>
          bget2 A p b * bget1 u p * bget1 v p * bget2 C p a)%F)).

(** [row[cs] = t], one write after the other in the order of [cs], so the
    last write to a position stays (the order NumPy uses, and the only place
    where it shows is an index list that names a position twice). *)
Definition setitem1 (row : list F) (cs : list nat) (t : list F) : list F :=
  foldl (fun acc cx => <[cx.1 := cx.2]> acc) row (zip cs t).

(** [M[(rs[:, None], cs)] = T], row-major: for each [a] in turn, row [rs[a]]
    receives row [a] of [T] at the columns [cs]. *)
Definition scatter_rows (rws : list (list F)) (rs cs : list nat)
    (T : list (list F)) : list (list F) :=
  foldl (fun acc rt => alter (fun row => setitem1 row cs rt.2) rt.1 acc)
    rws (zip rs T).

Definition setitem_outer (M : ndarray2) (rs cs : list nat) (T : list (list F))
  : ndarray2 :=
  Array2 (nrows M) (ncols M) (scatter_rows (rows M) rs cs T).

(** [M[(lpos[:, None], lpos)] += X]: NumPy gathers the indexed entries into a
    temporary, adds [X] to it in place ([X] must stretch to the temporary's
    shape) and writes the temporary back through the same indices. *)
Definition inplace_dim (out s : nat) : result nat :=
  if decide (s = out) then Ok out
  else if decide (s = 1) then Ok out
  else Raise ValueError.

Definition get_ix (l : list nat) (a : nat) : nat := default 0 (l !! a).

(** The temporary after the in-place add: the gathered entries plus [X]. *)
Definition iadd_temporary (M : ndarray2) (rs cs : list nat) (X : ndarray2)
  : list (list F) :=
  (fun a => (fun b => get2 M (get_ix rs a) (get_ix cs b) + bget2 X a b)%F
              <$> seq 0 (length cs)) <$> seq 0 (length rs).

Definition iadd_outer (M : ndarray2) (lpos : index_array) (X : ndarray2)
  : result ndarray2 :=
  l ← index_entries lpos;
  rs ← mapM (normalize_index (nrows M)) l;
  cs ← mapM (normalize_index (ncols M)) l;
  _ ← inplace_dim (length rs) (nrows X);
  _ ← inplace_dim (length cs) (ncols X);
  Ok (setitem_outer M rs cs (iadd_temporary M rs cs X)).

End Arrays.

Arguments ndarray2 F : clear implicits.

(** ** The psi4 objects the loop reads *)

(** A block of grid points: [block.npoints()],
    [block.functions_local_to_global()] (a vector of C ints) and [block.w()]. *)
Record BlockOPoints (F : Type) := Block {
  npoints : nat;
  functions_local_to_global : list Z;
  w : list F
}.
Arguments Block {F} _ _ _.
Arguments npoints {F} _.
Arguments functions_local_to_global {F} _.
Arguments w {F} _.

(** [Vpot]: [Vpot.nblocks()] and [Vpot.get_block(b)]. *)
Record VBase (F : Type) := {
  nblocks : nat;
  get_block : nat -> BlockOPoints F
}.
Arguments nblocks {F} _.
Arguments get_block {F} _ _.

(** What [superfunc.compute_functional] hands back: [ret["V"]] and
    [ret["V_RHO_A"]]. *)
Record FunctionalValues (F : Type) := {
  ret_V : list F;
  ret_V_RHO_A : list F
}.
Arguments ret_V {F} _.
Arguments ret_V_RHO_A {F} _.

(** The arrays and the scalar the cell binds before the loop and the loop
    updates: [D], [V] and [xc_e]. *)
Record Namespace (F : Type) := {
  D : ndarray2 F;
  V : ndarray2 F;
  xc_e : F
}.
Arguments D {F} _.
Arguments V {F} _.
Arguments xc_e {F} _.

Section Kernel.
Context {F : Type} `{Scalar F}.

(** [points_func.compute_points(block)] followed by
    [points_func.basis_values()["PHI"]]. *)
Variable basis_values_PHI : BlockOPoints F -> ndarray2 F.

(** [superfunc.compute_functional({"RHO_A": rho}, -1)]. *)
Variable compute_functional : list F -> FunctionalValues F.

(** [rho = 2.0 * np.einsum('pm,mn,pn->p', phi, lD, phi)] *)
Definition density_assembler (phi lD : ndarray2 F) : result (list F) :=
  s ← einsum_pm_mn_pn_p phi lD phi;
  Ok (scale1 f_two s).

(** [Vtmp = np.einsum('pb,p,p,pa->ab', phi, v_rho_a, w, phi)] and
    [V[(lpos[:, None], lpos)] += 0.5 * (Vtmp + Vtmp.T)] *)
Definition matrix_accumulator (V0 : ndarray2 F) (lpos : index_array)
    (phi : ndarray2 F) (v_rho_a w0 : list F) : result (ndarray2 F) :=
  Vtmp ← einsum_pb_p_p_pa_ab phi v_rho_a w0 phi;
  S ← add2 Vtmp (transpose Vtmp);
  iadd_outer V0 lpos (scale2 f_half S).

(** The body of [for b in range(Vpot.nblocks())], statement by statement. *)
Definition loop_body (ns : Namespace F) (block : BlockOPoints F)
  : result (Namespace F) :=
  let npoints := npoints block in
  let lpos := np_array (functions_local_to_global block) in
  let w := w block in
  let phi := slice2 (basis_values_PHI block) npoints (shape0 lpos) in
  lD ← getitem_outer (D ns) lpos;
  rho ← density_assembler phi lD;
  let ret := compute_functional rho in
  let vk := slice1 (ret_V ret) npoints in
  e ← einsum_a_a w vk;
  let xc_e' := (xc_e ns + e)%F in
  let v_rho_a := slice1 (ret_V_RHO_A ret) npoints in
  V' ← matrix_accumulator (V ns) lpos phi v_rho_a w;
  Ok {| D := D ns; V := V'; xc_e := xc_e' |}.

(** The loop over a sequence of blocks; an exception ends it. *)
Fixpoint run_blocks (ns : Namespace F) (blocks : list (BlockOPoints F))
  : result (Namespace F) :=
  match blocks with
  | [] => Ok ns
  | block :: rest => ns' ← loop_body ns block; run_blocks ns' rest
  end.

(** [V = np.zeros_like(D)] and [xc_e = 0.0].  ([rho = []] is rebound in the
    loop before it is read.) *)
Definition initial (D0 : ndarray2 F) : Namespace F :=
  {| D := D0; V := zeros_like D0; xc_e := f_zero |}.

(** The blocks in the order [range(Vpot.nblocks())] visits them. *)
Definition blocks_of (Vpot : VBase F) : list (BlockOPoints F) :=
  get_block Vpot <$> seq 0 (nblocks Vpot).

(** The whole cell, up to the values it prints. *)
Definition xc_kernel (Vpot : VBase F) (D0 : ndarray2 F)
  : result (Namespace F) :=
  run_blocks (initial D0) (blocks_of Vpot).

End Kernel.

(** ** The cell on a store of array objects *)

(** The functions above pass arrays by value.  What the interpreter holds is
    a store of array objects and names bound to them: two names may be bound
    to one object, and an indexed assignment changes the object, for every
    name bound to it.  [Memory] keeps what the frame effect of the cell is
    about: the array objects alive, the objects the names [D], [V] and [lD]
    are bound to ([lD] is unbound before the first pass), and the float
    [xc_e]. *)
Definition loc := nat.

Record Memory (F : Type) := Mem {
  objects : gmap loc (ndarray2 F);
  name_D : loc;
  name_V : loc;
  name_lD : option loc;
  name_xc_e : F
}.
Arguments Mem {F} _ _ _ _ _.
Arguments objects {F} _.
Arguments name_D {F} _.
Arguments name_V {F} _.
Arguments name_lD {F} _.
Arguments name_xc_e {F} _.

(** A statement changes the memory and returns a value or raises.  The memory
    it leaves is kept in both cases: after an exception the names hold what
    the statements before it made of them. *)
Definition cmd (F A : Type) : Type := Memory F -> Memory F * result A.

#[global] Instance cmd_ret {F} : MRet (cmd F) := fun A a m => (m, Ok a).
#[global] Instance cmd_bind {F} : MBind (cmd F) := fun A B f c m =>
  match c m with
  | (m', Ok a) => f a m'
  | (m', Raise e) => (m', Raise e)
  end.

(** In every memory met below the names [D] and [V] are bound to objects of
    the store; the empty array is what [!!!] returns otherwise. *)
#[global] Instance ndarray2_inhabited {F} : Inhabited (ndarray2 F) :=
  populate (Array2 0 0 []).

Section Objects.
Context {F : Type} `{Scalar F}.
Variable basis_values_PHI : BlockOPoints F -> ndarray2 F.
Variable compute_functional : list F -> FunctionalValues F.

(** An expression that reads no name. *)
Definition lift {A} (r : result A) : cmd F A := fun m => (m, r).

(** The array a name is bound to. *)
Definition load (name : Memory F -> loc) : cmd F (ndarray2 F) :=
  fun m => (m, Ok (objects m !!! name m)).

(** A new array object: its place is none of those in use. *)
Definition alloc (M : ndarray2 F) : cmd F loc := fun m =>
  let l := fresh (dom (objects m)) in
  (Mem (<[l := M]> (objects m)) (name_D m) (name_V m) (name_lD m)
     (name_xc_e m),
   Ok l).

(** [lD = ...]: the name is bound to the object at [l]. *)
Definition bind_lD (l : loc) : cmd F unit := fun m =>
  (Mem (objects m) (name_D m) (name_V m) (Some l) (name_xc_e m), Ok ()).

(** [xc_e += e]: floats are values, the name is bound to the sum. *)
Definition iadd_xc_e (e : F) : cmd F unit := fun m =>
  (Mem (objects m) (name_D m) (name_V m) (name_lD m) (name_xc_e m + e)%F,
   Ok ()).

(** [V[(lpos[:, None], lpos)] += X]: the object [V] is bound to is changed in
    place, and is left as it is when NumPy refuses the indices or the
    shapes. *)
Definition iadd_outer_V (lpos : index_array) (X : ndarray2 F) : cmd F unit :=
  fun m =>
    match iadd_outer (objects m !!! name_V m) lpos X with
    | Ok M' =>
        (Mem (<[name_V m := M']> (objects m)) (name_D m) (name_V m)
           (name_lD m) (name_xc_e m),
         Ok ())
    | Raise e => (m, Raise e)
    end.

(** The body of the loop on the store, statement by statement.  Indexing
    with index arrays builds a new array, so [lD] is bound to a new object;
    the contractions read their operands and build their results. *)
Definition exec_body (block : BlockOPoints F) : cmd F unit :=
  let npoints := npoints block in
  let lpos := np_array (functions_local_to_global block) in
  let w := w block in
  let phi := slice2 (basis_values_PHI block) npoints (shape0 lpos) in
  D0 ← load name_D;
  lD ← lift (getitem_outer D0 lpos);
  l ← alloc lD;
  _ ← bind_lD l;
  rho ← lift (density_assembler phi lD);
  let ret := compute_functional rho in
  let vk := slice1 (ret_V ret) npoints in
  e ← lift (einsum_a_a w vk);
  _ ← iadd_xc_e e;
  let v_rho_a := slice1 (ret_V_RHO_A ret) npoints in
  Vtmp ← lift (einsum_pb_p_p_pa_ab phi v_rho_a w phi);
  S ← lift (add2 Vtmp (transpose Vtmp));
  iadd_outer_V lpos (scale2 f_half S).

Fixpoint exec_blocks (blocks : list (BlockOPoints F)) : cmd F unit :=
  match blocks with
  | [] => mret ()
  | block :: rest => _ ← exec_body block; exec_blocks rest
  end.

(** [D = np.array(wfn.Da())], [V = np.zeros_like(D)] and [xc_e = 0.0], in a
    store that holds the objects [alive] from the cells before: [np.array]
    and [np.zeros_like] each build a new object. *)
Definition exec_start (alive : gmap loc (ndarray2 F)) (Da : ndarray2 F)
  : Memory F :=
  let d := fresh (dom alive) in
  let objs := <[d := Da]> alive in
  let v := fresh (dom objs) in
  Mem (<[v := zeros_like Da]> objs) d v None f_zero.

Definition exec_cell (Vpot : VBase F) (alive : gmap loc (ndarray2 F))
    (Da : ndarray2 F) : Memory F * result unit :=
  exec_blocks (blocks_of Vpot) (exec_start alive Da).

(** The arrays and the float the names are bound to. *)
Definition view (m : Memory F) : Namespace F :=
  {| D := objects m !!! name_D m;
     V := objects m !!! name_V m;
     xc_e := name_xc_e m |}.

(** [D] and [V] are bound to two different objects of the store, and [lD] is
    not bound to the object of [D]. *)
Definition separate (m : Memory F) : Prop :=
  name_D m ∈ dom (objects m) /\ name_V m ∈ dom (objects m) /\
  name_V m <> name_D m /\ name_lD m <> Some (name_D m).

End Objects.

(** ** Vocabulary of the statements *)

Section Vocabulary.
Context {F : Type} `{Scalar F}.
Variable basis_values_PHI : BlockOPoints F -> ndarray2 F.
Variable compute_functional : list F -> FunctionalValues F.

(** The indices NumPy accepts for an axis of extent [n], and the position
    each of them names. *)
Definition valid_index (n : nat) (i : Z) : Prop :=
  (- Z.of_nat n <= i < Z.of_nat n)%Z.

#[global] Instance valid_index_dec n i : Decision (valid_index n i).
Proof. unfold valid_index. apply _. Defined.

Definition global_index (n : nat) (i : Z) : nat :=
  Z.to_nat (if decide (i < 0)%Z then i + Z.of_nat n else i).

(** The last position of [i] in [l]: the write that survives when an index
    list names the same position more than once. *)
Fixpoint rindex (l : list nat) (i : nat) : option nat :=
  match l with
  | [] => None
  | x :: l' =>
      match rindex l' i with
      | Some b => Some (S b)
      | None => if decide (x = i) then Some 0 else None
      end
  end.

(** Entry [(i, j)] after [M[(lpos[:, None], lpos)] += X]. *)
Definition iadd_entry (M : ndarray2 F) (lpos : list Z) (X : ndarray2 F)
    (i j : nat) : F :=
  match rindex (global_index (nrows M) <$> lpos) i,
        rindex (global_index (ncols M) <$> lpos) j with
  | Some a, Some b => (get2 M i j + bget2 X a b)%F
  | _, _ => get2 M i j
  end.

(** Two extents fit when they are equal or one of them is 1. *)
Definition stretches (a b : nat) : Prop := a = b \/ a = 1 \/ b = 1.

Definition square (n : nat) (M : ndarray2 F) : Prop :=
  nrows M = n /\ ncols M = n.

(** The invariant of the loop: [V] is a well-formed [n] by [n] array that
    equals its transpose entry by entry. *)
Definition symmetric_state (n : nat) (M : ndarray2 F) : Prop :=
  wf2 M /\ square n M /\
  forall i j, i < n -> j < n -> get2 M i j = get2 M j i.

(** The part of the loop body that reads [D] and the block and touches neither
    [V] nor [xc_e]: the energy increment and the symmetrised matrix. *)
Definition block_delta (D0 : ndarray2 F) (block : BlockOPoints F)
  : result (F * ndarray2 F) :=
  let lpos := np_array (functions_local_to_global block) in
  let phi := slice2 (basis_values_PHI block) (npoints block) (shape0 lpos) in
  lD ← getitem_outer D0 lpos;
  rho ← density_assembler phi lD;
  let ret := compute_functional rho in
  e ← einsum_a_a (w block) (slice1 (ret_V ret) (npoints block));
  Vtmp ← einsum_pb_p_p_pa_ab phi
           (slice1 (ret_V_RHO_A ret) (npoints block)) (w block) phi;
  S ← add2 Vtmp (transpose Vtmp);
  Ok (e, scale2 f_half S).

(** A block whose data fit together: at least one index, indices that name
    basis functions of [D], a collocation buffer that covers the block's
    points and functions, one weight per point. *)
Record block_consistent (n : nat) (block : BlockOPoints F) : Prop := {
  bc_nonempty : functions_local_to_global block <> [];
  bc_lpos : Forall (valid_index n) (functions_local_to_global block);
  bc_phi_rows : npoints block <= nrows (basis_values_PHI block);
  bc_phi_cols :
    length (functions_local_to_global block) <= ncols (basis_values_PHI block);
  bc_w : length (w block) = npoints block
}.

(** The functional returns a value for each point it is given. *)
Definition functional_per_point : Prop :=
  forall rho,
    length rho <= length (ret_V (compute_functional rho)) /\
    length rho <= length (ret_V_RHO_A (compute_functional rho)).

(** The formulas of the specification, entry by entry. *)

(** [rho_p = 2 sum_{mu nu} Phi_{p mu} lD_{mu nu} Phi_{p nu}] *)
Definition rho_formula (L : nat) (phi lD : ndarray2 F) (p : nat) : F :=
  (f_two * sum_upto L (fun mu => sum_upto L (fun nu =>
     get2 phi p mu * get2 lD mu nu * get2 phi p nu)))%F.

(** [Vtmp_ab = sum_p Phi_pb v_rho_p w_p Phi_pa] *)
Definition Vtmp_formula (P : nat) (phi : ndarray2 F) (v_rho w0 : list F)
    (a b : nat) : F :=
  sum_upto P (fun p =>
    get2 phi p b * get1 v_rho p * get1 w0 p * get2 phi p a)%F.

(** [0.5 (Vtmp + Vtmp^T)] *)
Definition symmetrized (Vtmp : nat -> nat -> F) (a b : nat) : F :=
  (f_half * (Vtmp a b + Vtmp b a))%F.

(** The positions of [D] and [V] a block's index list names. *)
Definition block_globals (n : nat) (block : BlockOPoints F) : list nat :=
  global_index n <$> functions_local_to_global block.

(** The density of a block on its points, from [D] and the buffer. *)
Definition block_rho (n : nat) (D0 : ndarray2 F) (block : BlockOPoints F)
  : list F :=
  let g := block_globals n block in
  tabulate1 (npoints block) (fun p =>
    f_two * sum_upto (length g) (fun mu => sum_upto (length g) (fun nu =>
      get2 (basis_values_PHI block) p mu
      * get2 D0 (get_ix g mu) (get_ix g nu)
      * get2 (basis_values_PHI block) p nu)))%F.

(** [sum_p w_p e_p] for a block. *)
Definition block_energy (n : nat) (D0 : ndarray2 F) (block : BlockOPoints F)
  : F :=
  let e := ret_V (compute_functional (block_rho n D0 block)) in
  sum_upto (npoints block) (fun p => get1 (w block) p * get1 e p)%F.

(** A block's symmetrised contribution to [V], in local indices. *)
Definition block_contribution (n : nat) (D0 : ndarray2 F)
    (block : BlockOPoints F) (a b : nat) : F :=
  let v := ret_V_RHO_A (compute_functional (block_rho n D0 block)) in
  symmetrized
    (Vtmp_formula (npoints block) (basis_values_PHI block) v (w block)) a b.

(** What a block does to entry [(i, j)] of [V]: nothing unless both [i] and
    [j] are among its global indices. *)
Definition block_update (n : nat) (D0 : ndarray2 F) (block : BlockOPoints F)
    (i j : nat) (x : F) : F :=
  let g := block_globals n block in
  match rindex g i, rindex g j with
  | Some a, Some b => (x + block_contribution n D0 block a b)%F
  | _, _ => x
  end.

(** The vector on the global positions that a vector [x] on the local
    positions corresponds to: entry [i] collects the [x mu] with [g mu = i]. *)
Definition pushforward (L : nat) (g : nat -> nat) (x : nat -> F) (i : nat)
  : F :=
  sum_upto L (fun mu => if decide (g mu = i) then x mu else f_zero).

(** Positive semidefinite, for an order [le] on the scalars. *)
Definition positive_semidefinite (le : F -> F -> Prop) (n : nat)
    (M : ndarray2 F) : Prop :=
  forall x : nat -> F,
    le f_zero (sum_upto n (fun i => sum_upto n (fun j =>
      x i * get2 M i j * x j)))%F.

(** Follows the specification's words: the reference the blocked assembly is
    compared with, a contraction over all points and all basis functions at
    once, [V_{mu nu} = sum_p phi_{p mu} phi_{p nu} w_p f_p], with no blocks, no
    index lists and no symmetrisation. *)
Definition reference_V (n P : nat) (D0 PHI : ndarray2 F) (w0 : list F)
  : ndarray2 F :=
  let rho := tabulate1 P (fun p => rho_formula n PHI D0 p) in
  let f := ret_V_RHO_A (compute_functional rho) in
  tabulate2 n n (fun mu nu =>
    sum_upto P (fun p =>
      get2 PHI p mu * get2 PHI p nu * get1 w0 p * get1 f p)%F).

(** The index list of a block that sees every basis function in order, and
    a grid that consists of one block. *)
Definition identity_mapping (n : nat) : list Z := Z.of_nat <$> seq 0 n.

Definition single_block (block : BlockOPoints F) : VBase F :=
  {| nblocks := 1; get_block := fun _ => block |}.

(** What the specification counts as consistent shapes for a block: [Phi] is
    points by local functions, there is one weight per point, and the index
    list stays inside [D]. *)
Definition shapes_agree (D0 : ndarray2 F) (block : BlockOPoints F) : Prop :=
  nrows (basis_values_PHI block) = npoints block /\
  ncols (basis_values_PHI block) = length (functions_local_to_global block) /\
  length (w block) = npoints block /\
  Forall (fun i => (0 <= i < Z.of_nat (nrows D0))%Z
                   /\ (0 <= i < Z.of_nat (ncols D0))%Z)
    (functions_local_to_global block).

(** What NumPy checks, between [D], [Phi], the weights and the index list,
    on the way through the loop body: the dtype of the index array, the
    indices against both axes of [D], the columns of the sliced [Phi] against
    the index list, the rows of the sliced [Phi] against the weights. *)
Definition block_accepted (D0 : ndarray2 F) (block : BlockOPoints F) : Prop :=
  let lpos := functions_local_to_global block in
  let PHI := basis_values_PHI block in
  lpos <> [] /\
  Forall (valid_index (nrows D0)) lpos /\
  Forall (valid_index (ncols D0)) lpos /\
  (length lpos <= ncols PHI \/ ncols PHI = 1) /\
  stretches (npoints block `min` nrows PHI) (length (w block)).

(** An index list with its negative entries replaced by the positions they
    name on an axis of extent [n]. *)
Definition wrapped (n : nat) (lpos : list Z) : list Z :=
  Z.of_nat <$> (global_index n <$> lpos).

End Vocabulary.

(** ** A toy system in exact rational arithmetic *)

#[global] Instance Qc_scalar : Scalar Qc := {|
  f_zero := 0%Qc;
  f_add := Qcplus;
  f_mul := Qcmult;
  f_two := Q2Qc 2;
  f_half := Q2Qc (1 # 2)
|}.

(** Two basis functions, two grid points per block, and a functional that
    returns the density itself for both the energy density and its
    derivative. *)
Definition toy_D : ndarray2 Qc := Array2 2 2 [[1%Qc; 0%Qc]; [0%Qc; 1%Qc]].

Definition toy_PHI (_ : BlockOPoints Qc) : ndarray2 Qc :=
  Array2 2 2 [[1%Qc; 0%Qc]; [1%Qc; 1%Qc]].

Definition toy_functional (rho : list Qc) : FunctionalValues Qc :=
  {| ret_V := rho; ret_V_RHO_A := rho |}.

Definition toy_block0 : BlockOPoints Qc := Block 2 [0%Z; 1%Z] [1%Qc; 1%Qc].

Definition toy_block1 : BlockOPoints Qc := Block 2 [1%Z] [1%Qc; 1%Qc].

Definition toy_Vpot : VBase Qc :=
  {| nblocks := 2;
     get_block := fun b =>
       match b with O => toy_block0 | _ => toy_block1 end |}.

(** A block of two points with no basis function in range. *)
Definition empty_block : BlockOPoints Qc := Block 2 [] [1%Qc; 1%Qc].

(** A collocation buffer with a single column, and one with three. *)
Definition narrow_PHI (_ : BlockOPoints Qc) : ndarray2 Qc :=
  Array2 2 1 [[1%Qc]; [1%Qc]].

Definition wide_PHI (_ : BlockOPoints Qc) : ndarray2 Qc :=
  Array2 2 3 [[1%Qc; 0%Qc; 1%Qc]; [1%Qc; 1%Qc; 1%Qc]].

(** An index list that names position 0 twice, and a matrix to add through
    it. *)
Definition twice_zero : list Z := [0%Z; 0%Z].

Definition toy_X : ndarray2 Qc :=
  Array2 2 2 [[1%Qc; Q2Qc 2]; [Q2Qc 3; Q2Qc 4]].

(** A block whose second index lies outside [toy_D], one with a weight too
    many, and one with three indices for a buffer of two columns. *)
Definition stray_block : BlockOPoints Qc := Block 2 [0%Z; 2%Z] [1%Qc; 1%Qc].

Definition heavy_block : BlockOPoints Qc :=
  Block 2 [0%Z; 1%Z] [1%Qc; 1%Qc; 1%Qc].

Definition three_block : BlockOPoints Qc :=
  Block 2 [0%Z; 1%Z; 0%Z] [1%Qc; 1%Qc].

(** A density matrix that agrees with [toy_D] at position (1, 1) only. *)
Definition other_D : ndarray2 Qc :=
  Array2 2 2 [[Q2Qc 5; Q2Qc 7]; [Q2Qc 9; 1%Qc]].

(** A memory in which [V] is bound to the object of [D], as [V = D] in place
    of [V = np.zeros_like(D)] would leave it. *)
Definition aliased_memory : Memory Qc :=
  Mem {[ 0 := toy_D ]} 0 0 None 0%Qc.

(** ** IEEE doubles *)

(** The float operations of the cell as the machine has them: binary64,
    round to nearest even. *)
#[global] Instance float_scalar : Scalar float := {|
  f_zero := 0%float;
  f_add := PrimFloat.add;
  f_mul := PrimFloat.mul;
  f_two := 2%float;
  f_half := 0.5%float
|}.

(** The matrix [[1, -1], [-1, 1]], the outer product of [(1, -1)] with
    itself, over any scalars. *)
Definition cancelling_D {F} (one minus_one : F) : ndarray2 F :=
  Array2 2 2 [[one; minus_one]; [minus_one; one]].

(** One grid point at which the two basis functions take neighbouring
    doubles: [1.421875] and the next double above it. *)
Definition close_PHI : ndarray2 float :=
  Array2 1 2 [[0x1.6cp+0%float; 0x1.6c00000000001p+0%float]].

(** Every way of taking one term out of a list, and every value that [n + 1]
    terms add up to when two of them are added at a time, whichever two and
    in whichever order. *)
Fixpoint pick_one {A} (ts : list A) : list (A * list A) :=
  match ts with
  | [] => []
  | t :: ts' => (t, ts') :: ((fun xr => (xr.1, t :: xr.2)) <$> pick_one ts')
  end.

Fixpoint sums_in_any_order (n : nat) (ts : list float) : list float :=
  match n with
  | O => ts
  | S n' =>
      xr ← pick_one ts;
      yr ← pick_one xr.2;
      sums_in_any_order n' (PrimFloat.add xr.1 yr.1 :: yr.2)
  end.

(** * Proofs *)

(** ** The error monad *)

Lemma bind_Ok {A B} (r : result A) (f : A -> result B) (b : B) :
  r ≫= f = Ok b <-> exists a, r = Ok a /\ f a = Ok b.
Proof.
  destruct r as [a|e]; simpl; split.
  - intros Hf. exists a. done.
  - intros (a' & [= <-] & Hf). done.
  - done.
  - intros (a' & Ha & _). done.
Qed.

Lemma mapM_Ok {A B} (f : A -> result B) (l : list A) (k : list B) :
  mapM f l = Ok k <-> Forall2 (fun x y => f x = Ok y) l k.
Proof.
  revert k. induction l as [|x l IH]; intros k; simpl.
  - split.
    + intros [= <-]. constructor.
    + intros Hk. by inversion Hk.
  - split.
    + intros Hm. apply bind_Ok in Hm as (y & Hy & Hm).
      apply bind_Ok in Hm as (k' & Hk' & [= <-]).
      constructor; [done | by apply IH].
    + intros Hk. inversion Hk as [|? y ? k' Hy Hk']; subst.
      rewrite Hy. simpl. apply IH in Hk'. by rewrite Hk'.
Qed.

Lemma mapM_total {A B} (f : A -> result B) (g : A -> B) (l : list A) :
  Forall (fun x => f x = Ok (g x)) l -> mapM f l = Ok (g <$> l).
Proof.
  intros Hl. apply mapM_Ok. induction Hl; constructor; done.
Qed.

(** ** Index arrays and index normalisation *)

Lemma index_entries_np_array (l : list Z) :
  l <> [] -> index_entries (np_array l) = Ok l.
Proof. by destruct l. Qed.

Lemma index_entries_np_array_Ok (l k : list Z) :
  index_entries (np_array l) = Ok k -> l <> [] /\ k = l.
Proof. destruct l; [done|]. by intros [= <-]. Qed.

Lemma normalize_index_valid n i :
  valid_index n i -> normalize_index n i = Ok (global_index n i).
Proof.
  unfold valid_index, normalize_index, global_index. intros Hi.
  repeat case_decide; try lia; done.
Qed.

Lemma normalize_index_Ok n i r :
  normalize_index n i = Ok r -> valid_index n i /\ r = global_index n i.
Proof.
  unfold valid_index, normalize_index, global_index.
  repeat case_decide; intros [= <-] || intros [=]; split; lia || done.
Qed.

Lemma global_index_lt n i : valid_index n i -> global_index n i < n.
Proof. unfold valid_index, global_index. case_decide; lia. Qed.

Lemma mapM_normalize n (lpos : list Z) :
  Forall (valid_index n) lpos ->
  mapM (normalize_index n) lpos = Ok (global_index n <$> lpos).
Proof.
  intros Hl. apply mapM_total. eapply Forall_impl; [exact Hl|].
  intros i. apply normalize_index_valid.
Qed.

Lemma mapM_normalize_Ok n (lpos : list Z) rs :
  mapM (normalize_index n) lpos = Ok rs ->
  Forall (valid_index n) lpos /\ rs = global_index n <$> lpos.
Proof.
  intros Hm. apply mapM_Ok in Hm.
  induction Hm as [|i r l k Hi _ [IH1 IH2]]; [by split|].
  apply normalize_index_Ok in Hi as [Hv ->]. subst k.
  split; [by constructor | done].
Qed.

(** ** Arrays entry by entry *)

Section ArrayFacts.
Context {F : Type} `{Scalar F}.
Implicit Types (M A B X : ndarray2 F) (v u : list F).

Lemma length_tabulate1 n (f : nat -> F) : length (tabulate1 n f) = n.
Proof. unfold tabulate1. by rewrite length_fmap, length_seq. Qed.

Lemma lookup_tabulate1 n (f : nat -> F) p :
  p < n -> tabulate1 n f !! p = Some (f p).
Proof.
  intros Hp. unfold tabulate1. by rewrite list_lookup_fmap, lookup_seq_lt.
Qed.

Lemma tabulate1_ext n (f g : nat -> F) :
  (forall p, p < n -> f p = g p) -> tabulate1 n f = tabulate1 n g.
Proof.
  intros Hfg. unfold tabulate1. apply list_fmap_ext.
  intros i p Hp%lookup_seq. apply Hfg. lia.
Qed.

Lemma get2_tabulate2 nr nc (f : nat -> nat -> F) i j :
  i < nr -> j < nc -> get2 (tabulate2 nr nc f) i j = f i j.
Proof.
  intros Hi Hj. unfold get2, tabulate2. simpl.
  rewrite list_lookup_fmap, lookup_seq_lt by done. simpl.
  by rewrite list_lookup_fmap, lookup_seq_lt.
Qed.

Lemma wf2_tabulate2 nr nc (f : nat -> nat -> F) : wf2 (tabulate2 nr nc f).
Proof.
  split; simpl.
  - by rewrite length_fmap, length_seq.
  - apply Forall_fmap, Forall_forall. intros i _. simpl.
    by rewrite length_fmap, length_seq.
Qed.

Lemma tabulate2_ext nr nc (f g : nat -> nat -> F) :
  (forall i j, i < nr -> j < nc -> f i j = g i j) ->
  tabulate2 nr nc f = tabulate2 nr nc g.
Proof.
  intros Hfg. unfold tabulate2. f_equal.
  apply list_fmap_ext. intros k i Hi%lookup_seq.
  apply list_fmap_ext. intros k' j Hj%lookup_seq.
  apply Hfg; lia.
Qed.

Lemma tabulate2_get2 M : wf2 M -> tabulate2 (nrows M) (ncols M) (get2 M) = M.
Proof.
  destruct M as [nr nc rs]. intros [Hlen Hrows]. simpl in *.
  unfold tabulate2. f_equal. apply list_eq. intros i.
  rewrite list_lookup_fmap.
  destruct (decide (i < nr)) as [Hi|Hi].
  - rewrite lookup_seq_lt by done. simpl.
    destruct (lookup_lt_is_Some_2 rs i) as [r Hr]; [lia|].
    rewrite Hr. f_equal. apply list_eq. intros j.
    rewrite list_lookup_fmap.
    assert (length r = nc) as Hlr.
    { eapply (Forall_lookup_1 _ _ _ _ Hrows Hr). }
    destruct (decide (j < nc)) as [Hj|Hj].
    + rewrite lookup_seq_lt by done. simpl. unfold get2. simpl.
      rewrite Hr. simpl.
      destruct (lookup_lt_is_Some_2 r j) as [x Hx]; [lia|].
      by rewrite Hx.
    + rewrite lookup_seq_ge by lia. simpl. symmetry.
      apply lookup_ge_None_2. lia.
  - rewrite lookup_seq_ge by lia. simpl. symmetry.
    apply lookup_ge_None_2. lia.
Qed.

Lemma array2_ext A B :
  wf2 A -> wf2 B -> nrows A = nrows B -> ncols A = ncols B ->
  (forall i j, i < nrows A -> j < ncols A -> get2 A i j = get2 B i j) ->
  A = B.
Proof.
  intros HA HB Hr Hc Hget.
  rewrite <- (tabulate2_get2 A HA), <- (tabulate2_get2 B HB).
  rewrite <- Hr, <- Hc. by apply tabulate2_ext.
Qed.

Lemma sum_upto_ext n (f g : nat -> F) :
  (forall i, i < n -> f i = g i) -> sum_upto n f = sum_upto n g.
Proof.
  induction n as [|n IH]; intros Hfg; simpl; [done|].
  rewrite IH by (intros; apply Hfg; lia). by rewrite Hfg by lia.
Qed.

Lemma bidx_lt d i : i < d -> bidx d i = i.
Proof. unfold bidx. case_decide; lia. Qed.

Lemma broadcast_dims_pair n : broadcast_dims [n; n] = Ok n.
Proof.
  unfold broadcast_dims. simpl. unfold broadcast_dim.
  repeat (case_decide; simpl; try lia; try congruence).
Qed.

Lemma broadcast_dims_four n : broadcast_dims [n; n; n; n] = Ok n.
Proof.
  unfold broadcast_dims. simpl. unfold broadcast_dim.
  repeat (case_decide; simpl; try lia; try congruence).
Qed.

Lemma get2_slice2 M r c i j :
  i < r -> j < c -> get2 (slice2 M r c) i j = get2 M i j.
Proof.
  intros Hi Hj. unfold get2, slice2. simpl.
  rewrite list_lookup_fmap, lookup_take_lt by done.
  destruct (rows M !! i) as [row|]; simpl; [|done].
  by rewrite lookup_take_lt.
Qed.

Lemma get1_slice1 v n p : p < n -> get1 (slice1 v n) p = get1 v p.
Proof. intros Hp. unfold get1, slice1. by rewrite lookup_take_lt. Qed.

Lemma length_slice1 v n : length (slice1 v n) = n `min` length v.
Proof. unfold slice1. by rewrite length_take. Qed.

Lemma get2_scale2 c M i j :
  i < nrows M -> j < ncols M -> wf2 M ->
  get2 (scale2 c M) i j = (c * get2 M i j)%F.
Proof.
  intros Hi Hj [Hlen Hrows]. unfold get2, scale2, scale1. simpl.
  rewrite list_lookup_fmap.
  destruct (lookup_lt_is_Some_2 (rows M) i) as [r Hr]; [lia|].
  rewrite Hr. simpl. rewrite list_lookup_fmap.
  assert (length r = ncols M) as Hlr.
  { eapply (Forall_lookup_1 _ _ _ _ Hrows Hr). }
  destruct (lookup_lt_is_Some_2 r j) as [x Hx]; [lia|].
  by rewrite Hx.
Qed.

End ArrayFacts.

(** ** Scatter: which write survives *)

Lemma rindex_Some (l : list nat) i a : rindex l i = Some a -> l !! a = Some i.
Proof.
  revert a. induction l as [|x l IH]; intros a; simpl; [done|].
  destruct (rindex l i) as [b|] eqn:Hb.
  - intros [= <-]. simpl. by apply IH.
  - case_decide; [|done]. intros [= <-]. simpl. by subst.
Qed.

Lemma rindex_None (l : list nat) i a : rindex l i = None -> l !! a <> Some i.
Proof.
  revert a. induction l as [|x l IH]; intros a; simpl; [done|].
  destruct (rindex l i) as [b|] eqn:Hb; [done|].
  case_decide; [done|]. intros _.
  destruct a as [|a]; simpl; [congruence | by apply IH].
Qed.

Lemma rindex_lt (l : list nat) i a : rindex l i = Some a -> a < length l.
Proof. intros Ha%rindex_Some. by eapply lookup_lt_Some. Qed.

Lemma rindex_NoDup (l : list nat) i a :
  NoDup l -> l !! a = Some i -> rindex l i = Some a.
Proof.
  intros Hnd Ha.
  destruct (rindex l i) as [b|] eqn:Hb.
  - apply rindex_Some in Hb. f_equal. by eapply NoDup_lookup.
  - by apply rindex_None with (a := a) in Hb.
Qed.

Lemma rindex_not_elem (l : list nat) i : i ∉ l -> rindex l i = None.
Proof.
  intros Hi. destruct (rindex l i) as [a|] eqn:Ha; [|done].
  apply rindex_Some in Ha. destruct Hi. by eapply list_elem_of_lookup_2.
Qed.

Lemma rindex_get_ix (l : list nat) i a : rindex l i = Some a -> get_ix l a = i.
Proof. intros Ha%rindex_Some. unfold get_ix. by rewrite Ha. Qed.

Section Scatter.
Context {F : Type} `{Scalar F}.
Implicit Types (M X : ndarray2 F) (row t : list F) (T : list (list F)).

Lemma length_setitem1 row cs t : length (setitem1 row cs t) = length row.
Proof.
  unfold setitem1. revert row t.
  induction cs as [|c cs IH]; intros row [|x t]; simpl; try done.
  by rewrite IH, length_insert.
Qed.

Lemma lookup_setitem1 row cs t j :
  length t = length cs -> Forall (fun c => c < length row) cs ->
  setitem1 row cs t !! j =
  match rindex cs j with Some b => t !! b | None => row !! j end.
Proof.
  unfold setitem1. revert row t.
  induction cs as [|c cs IH]; intros row [|x t] Hlen Hcs; simpl in *; try done.
  apply Forall_cons in Hcs as [Hc Hcs].
  rewrite IH; [|lia|].
  - destruct (rindex cs j) as [b|]; [done|].
    case_decide as Hcj.
    + subst j. by rewrite list_lookup_insert_eq.
    + by rewrite list_lookup_insert_ne.
  - eapply Forall_impl; [exact Hcs|]. intros c'. by rewrite length_insert.
Qed.

Lemma setitem1_absorb row cs t1 t2 :
  length t1 = length cs -> length t2 = length cs ->
  Forall (fun c => c < length row) cs ->
  setitem1 (setitem1 row cs t1) cs t2 = setitem1 row cs t2.
Proof.
  intros H1 H2 Hcs. apply list_eq. intros j.
  rewrite !lookup_setitem1; try done.
  - by destruct (rindex cs j).
  - eapply Forall_impl; [exact Hcs|]. intros c. by rewrite length_setitem1.
Qed.

Lemma length_scatter_rows rws rs cs T :
  length (scatter_rows rws rs cs T) = length rws.
Proof.
  unfold scatter_rows. revert rws T.
  induction rs as [|r rs IH]; intros rws [|t T]; simpl; try done.
  by rewrite IH, length_alter.
Qed.

Lemma lookup_scatter_rows rws rs cs T i :
  length T = length rs ->
  Forall (fun t => length t = length cs) T ->
  Forall (fun row => Forall (fun c => c < length row) cs) rws ->
  scatter_rows rws rs cs T !! i =
  match rindex rs i with
  | Some a => (fun row => setitem1 row cs (default [] (T !! a))) <$> rws !! i
  | None => rws !! i
  end.
Proof.
  unfold scatter_rows. revert rws T.
  induction rs as [|r rs IH]; intros rws [|t T] Hlen HT Hrws;
    simpl in *; try done.
  apply Forall_cons in HT as [Ht HT].
  rewrite IH; [|lia|done|].
  - destruct (rindex rs i) as [a|] eqn:Ha.
    + rewrite list_lookup_alter. case_decide as Hri; [|done]. subst r.
      destruct (rws !! i) as [row|] eqn:Hrow; simpl; [|done].
      f_equal. apply setitem1_absorb; [done| |].
      * apply rindex_lt in Ha.
        destruct (lookup_lt_is_Some_2 T a) as [ta Hta]; [lia|].
        rewrite Hta. simpl. eapply (Forall_lookup_1 _ _ _ _ HT Hta).
      * eapply (Forall_lookup_1 _ _ _ _ Hrws Hrow).
    + case_decide as Hri.
      * subst r. by rewrite list_lookup_alter_eq.
      * by rewrite list_lookup_alter_ne.
  - apply Forall_forall. intros row Hrow%list_elem_of_lookup.
    destruct Hrow as [k Hk]. rewrite list_lookup_alter in Hk.
    case_decide.
    + destruct (rws !! r) as [row0|] eqn:Hrow0; simpl in Hk; [|done].
      injection Hk as <-.
      pose proof (Forall_lookup_1 _ _ _ _ Hrws Hrow0) as Hc.
      eapply Forall_impl; [exact Hc|]. intros c. by rewrite length_setitem1.
    + eapply (Forall_lookup_1 _ _ _ _ Hrws Hk).
Qed.

Lemma wf2_setitem_outer M rs cs T : wf2 M -> wf2 (setitem_outer M rs cs T).
Proof.
  intros [Hlen Hrows]. unfold setitem_outer.
  split; simpl; [by rewrite length_scatter_rows|].
  revert Hrows. generalize (rows M) as rws. clear Hlen. revert T.
  unfold scatter_rows.
  induction rs as [|r rs IH]; intros [|t T] rws Hrws; simpl; try done.
  apply IH. apply Forall_forall. intros row Hrow%list_elem_of_lookup.
  destruct Hrow as [k Hk]. rewrite list_lookup_alter in Hk.
  case_decide.
  - destruct (rws !! r) as [row0|] eqn:Hrow0; simpl in Hk; [|done].
    injection Hk as <-. rewrite length_setitem1.
    eapply (Forall_lookup_1 _ _ _ _ Hrws Hrow0).
  - eapply (Forall_lookup_1 _ _ _ _ Hrws Hk).
Qed.

Lemma get2_setitem_outer M rs cs T i j :
  wf2 M ->
  Forall (fun r => r < nrows M) rs -> Forall (fun c => c < ncols M) cs ->
  length T = length rs -> Forall (fun t => length t = length cs) T ->
  get2 (setitem_outer M rs cs T) i j =
  match rindex rs i, rindex cs j with
  | Some a, Some b => default f_zero (T !! a ≫= fun t => t !! b)
  | _, _ => get2 M i j
  end.
Proof.
  intros [Hlen Hrows] Hrs Hcs HlT HT. unfold get2 at 1, setitem_outer. simpl.
  rewrite lookup_scatter_rows; [|done|done|].
  - destruct (rindex rs i) as [a|] eqn:Ha; [|by destruct (rindex cs j)].
    pose proof (rindex_Some _ _ _ Ha) as Hrsa.
    pose proof (Forall_lookup_1 _ _ _ _ Hrs Hrsa) as Hi. simpl in Hi.
    destruct (lookup_lt_is_Some_2 (rows M) i) as [row Hrow]; [lia|].
    rewrite Hrow. simpl.
    pose proof (Forall_lookup_1 _ _ _ _ Hrows Hrow) as Hlrow. simpl in Hlrow.
    destruct (lookup_lt_is_Some_2 T a) as [ta Hta].
    { apply lookup_lt_Some in Hrsa. lia. }
    rewrite Hta. simpl.
    rewrite lookup_setitem1.
    + destruct (rindex cs j) as [b|]; [done|].
      unfold get2. by rewrite Hrow.
    + eapply (Forall_lookup_1 _ _ _ _ HT Hta).
    + eapply Forall_impl; [exact Hcs|]. intros c. simpl. lia.
  - eapply Forall_impl; [exact Hrows|]. intros row Hrow. simpl in Hrow.
    eapply Forall_impl; [exact Hcs|]. intros c. simpl. lia.
Qed.

End Scatter.

(** ** The in-place scatter-add *)

Section ScatterAdd.
Context {F : Type} `{Scalar F}.
Implicit Types (M X : ndarray2 F).

Lemma inplace_dim_Ok out s d :
  inplace_dim out s = Ok d <-> (s = out \/ s = 1) /\ d = out.
Proof.
  unfold inplace_dim. repeat case_decide; split; try intros [= <-];
    try intros [[?|?] ?]; try done; subst; try lia; split; auto.
Qed.

Lemma iadd_outer_inv M (lpos : list Z) X M' :
  iadd_outer M (np_array lpos) X = Ok M' ->
  lpos <> [] /\
  Forall (valid_index (nrows M)) lpos /\
  Forall (valid_index (ncols M)) lpos /\
  (nrows X = length lpos \/ nrows X = 1) /\
  (ncols X = length lpos \/ ncols X = 1) /\
  M' = setitem_outer M (global_index (nrows M) <$> lpos)
         (global_index (ncols M) <$> lpos)
         (iadd_temporary M (global_index (nrows M) <$> lpos)
            (global_index (ncols M) <$> lpos) X).
Proof.
  unfold iadd_outer. intros Hok.
  apply bind_Ok in Hok as (l & Hl & Hok).
  apply index_entries_np_array_Ok in Hl as [Hne ->].
  apply bind_Ok in Hok as (rs & Hrs & Hok).
  apply bind_Ok in Hok as (cs & Hcs & Hok).
  apply bind_Ok in Hok as (d1 & Hd1 & Hok).
  apply bind_Ok in Hok as (d2 & Hd2 & Hok).
  apply mapM_normalize_Ok in Hrs as [Hvr ->].
  apply mapM_normalize_Ok in Hcs as [Hvc ->].
  apply inplace_dim_Ok in Hd1 as [Hd1 _].
  apply inplace_dim_Ok in Hd2 as [Hd2 _].
  rewrite length_fmap in Hd1, Hd2.
  injection Hok as <-. done.
Qed.

Lemma iadd_outer_total M (lpos : list Z) X :
  lpos <> [] ->
  Forall (valid_index (nrows M)) lpos ->
  Forall (valid_index (ncols M)) lpos ->
  (nrows X = length lpos \/ nrows X = 1) ->
  (ncols X = length lpos \/ ncols X = 1) ->
  iadd_outer M (np_array lpos) X =
  Ok (setitem_outer M (global_index (nrows M) <$> lpos)
        (global_index (ncols M) <$> lpos)
        (iadd_temporary M (global_index (nrows M) <$> lpos)
           (global_index (ncols M) <$> lpos) X)).
Proof.
  intros Hne Hvr Hvc Hd1 Hd2. unfold iadd_outer.
  rewrite index_entries_np_array by done. simpl.
  rewrite !mapM_normalize by done. simpl.
  assert (inplace_dim (length (global_index (nrows M) <$> lpos)) (nrows X)
          = Ok (length (global_index (nrows M) <$> lpos))) as ->.
  { apply inplace_dim_Ok. by rewrite length_fmap. }
  simpl.
  assert (inplace_dim (length (global_index (ncols M) <$> lpos)) (ncols X)
          = Ok (length (global_index (ncols M) <$> lpos))) as ->.
  { apply inplace_dim_Ok. by rewrite length_fmap. }
  done.
Qed.

Lemma iadd_outer_shape M (lpos : list Z) X M' :
  wf2 M -> iadd_outer M (np_array lpos) X = Ok M' ->
  wf2 M' /\ nrows M' = nrows M /\ ncols M' = ncols M.
Proof.
  intros Hwf (_ & _ & _ & _ & _ & ->)%iadd_outer_inv.
  split; [by apply wf2_setitem_outer | done].
Qed.

Lemma get2_iadd_outer M (lpos : list Z) X M' i j :
  wf2 M -> iadd_outer M (np_array lpos) X = Ok M' ->
  get2 M' i j = iadd_entry M lpos X i j.
Proof.
  intros Hwf (_ & Hvr & Hvc & _ & _ & ->)%iadd_outer_inv.
  unfold iadd_entry.
  set (rs := global_index (nrows M) <$> lpos).
  set (cs := global_index (ncols M) <$> lpos).
  rewrite get2_setitem_outer; try done.
  - destruct (rindex rs i) as [a|] eqn:Ha; [|done].
    destruct (rindex cs j) as [b|] eqn:Hb; [|done].
    unfold iadd_temporary.
    rewrite list_lookup_fmap, lookup_seq_lt by (by eapply rindex_lt).
    simpl.
    rewrite list_lookup_fmap, lookup_seq_lt by (by eapply rindex_lt).
    simpl. by rewrite (rindex_get_ix _ _ _ Ha), (rindex_get_ix _ _ _ Hb).
  - subst rs. apply Forall_fmap. eapply Forall_impl; [exact Hvr|].
    intros k. apply global_index_lt.
  - subst cs. apply Forall_fmap. eapply Forall_impl; [exact Hvc|].
    intros k. apply global_index_lt.
  - unfold iadd_temporary. by rewrite length_fmap, length_seq.
  - unfold iadd_temporary. apply Forall_fmap, Forall_forall. intros a _.
    simpl. by rewrite length_fmap, length_seq.
Qed.

Lemma iadd_outer_tabulate M (lpos : list Z) X M' :
  wf2 M -> iadd_outer M (np_array lpos) X = Ok M' ->
  M' = tabulate2 (nrows M) (ncols M) (iadd_entry M lpos X).
Proof.
  intros Hwf Hok.
  destruct (iadd_outer_shape _ _ _ _ Hwf Hok) as (Hwf' & Hr & Hc).
  apply array2_ext; try done.
  - apply wf2_tabulate2.
  - intros i j Hi Hj. rewrite get2_tabulate2 by lia.
    by eapply get2_iadd_outer.
Qed.

End ScatterAdd.

(** ** Gather and the two contractions *)

Section Contractions.
Context {F : Type} `{Scalar F}.
Implicit Types (M phi lD : ndarray2 F) (v u : list F).

Lemma getitem_outer_inv M (lpos : list Z) lD :
  getitem_outer M (np_array lpos) = Ok lD ->
  lpos <> [] /\
  Forall (valid_index (nrows M)) lpos /\
  Forall (valid_index (ncols M)) lpos /\
  nrows lD = length lpos /\ ncols lD = length lpos.
Proof.
  unfold getitem_outer. intros Hok.
  apply bind_Ok in Hok as (l & Hl & Hok).
  apply index_entries_np_array_Ok in Hl as [Hne ->].
  apply bind_Ok in Hok as (rs & Hrs & Hok).
  apply bind_Ok in Hok as (cs & Hcs & Hok).
  apply mapM_normalize_Ok in Hrs as [Hvr ->].
  apply mapM_normalize_Ok in Hcs as [Hvc ->].
  injection Hok as <-. simpl. by rewrite !length_fmap.
Qed.

Lemma getitem_outer_spec M (lpos : list Z) :
  lpos <> [] ->
  Forall (valid_index (nrows M)) lpos ->
  Forall (valid_index (ncols M)) lpos ->
  exists lD,
    getitem_outer M (np_array lpos) = Ok lD /\
    nrows lD = length lpos /\ ncols lD = length lpos /\
    forall a b, a < length lpos -> b < length lpos ->
      get2 lD a b = get2 M (get_ix (global_index (nrows M) <$> lpos) a)
                           (get_ix (global_index (ncols M) <$> lpos) b).
Proof.
  intros Hne Hvr Hvc. unfold getitem_outer.
  rewrite index_entries_np_array by done. simpl.
  rewrite !mapM_normalize by done. simpl.
  eexists. split; [reflexivity|]. simpl. rewrite !length_fmap.
  split; [done|]. split; [done|].
  intros a b Ha Hb. unfold get2 at 1. simpl.
  destruct (lookup_lt_is_Some_2 lpos a) as [ia Hia]; [done|].
  destruct (lookup_lt_is_Some_2 lpos b) as [ib Hib]; [done|].
  unfold get_ix. rewrite !list_lookup_fmap, Hia, Hib. simpl.
  by rewrite !list_lookup_fmap, Hib.
Qed.

Lemma getitem_outer_nil M : getitem_outer M (np_array []) = Raise IndexError.
Proof. done. Qed.

Lemma density_assembler_spec P L phi lD :
  nrows phi = P -> ncols phi = L -> nrows lD = L -> ncols lD = L ->
  density_assembler phi lD = Ok (tabulate1 P (rho_formula L phi lD)).
Proof.
  intros HP HL HlDr HlDc. unfold density_assembler, einsum_pm_mn_pn_p.
  rewrite HP, HL, HlDr, HlDc, !broadcast_dims_pair. simpl.
  f_equal. unfold scale1, tabulate1. rewrite <- list_fmap_compose.
  apply list_fmap_ext. intros k p Hp%lookup_seq. simpl.
  unfold rho_formula. f_equal.
  apply sum_upto_ext. intros m Hm. apply sum_upto_ext. intros n Hn.
  unfold bget2. rewrite HP, HL, HlDr, HlDc.
  rewrite !bidx_lt by lia. done.
Qed.

Lemma einsum_a_a_spec n u v :
  length u = n -> length v = n ->
  einsum_a_a u v = Ok (sum_upto n (fun a => get1 u a * get1 v a)%F).
Proof.
  intros Hu Hv. unfold einsum_a_a.
  rewrite Hu, Hv, broadcast_dims_pair. simpl. f_equal.
  apply sum_upto_ext. intros a Ha. unfold bget1.
  rewrite Hu, Hv, !bidx_lt by lia. done.
Qed.

Lemma einsum_pb_p_p_pa_ab_spec P L phi u v :
  nrows phi = P -> ncols phi = L -> length u = P -> length v = P ->
  einsum_pb_p_p_pa_ab phi u v phi =
  Ok (tabulate2 L L (Vtmp_formula P phi u v)).
Proof.
  intros HP HL Hu Hv. unfold einsum_pb_p_p_pa_ab.
  rewrite HP, HL, Hu, Hv, broadcast_dims_four. simpl. f_equal.
  apply tabulate2_ext. intros a b Ha Hb. unfold Vtmp_formula.
  apply sum_upto_ext. intros p Hp. unfold bget2, bget1.
  rewrite HP, HL, Hu, Hv, !bidx_lt by lia. done.
Qed.

(** [0.5 * (Vtmp + Vtmp.T)] for a square [Vtmp] given entry by entry. *)
Lemma symmetrise_spec L (g : nat -> nat -> F) :
  add2 (tabulate2 L L g) (transpose (tabulate2 L L g)) =
  Ok (tabulate2 L L (fun a b => g a b + g b a)%F).
Proof.
  unfold add2, transpose. simpl. rewrite !broadcast_dims_pair. simpl.
  f_equal. apply tabulate2_ext. intros a b Ha Hb.
  unfold bget2. simpl. rewrite !bidx_lt by lia.
  rewrite !get2_tabulate2 by lia. done.
Qed.

Lemma get2_symmetrised L (g : nat -> nat -> F) a b :
  a < L -> b < L ->
  get2 (scale2 f_half (tabulate2 L L (fun a b => g a b + g b a)%F)) a b =
  symmetrized g a b.
Proof.
  intros Ha Hb. rewrite get2_scale2; simpl; try done.
  - by rewrite get2_tabulate2.
  - apply wf2_tabulate2.
Qed.

End Contractions.

(** ** One pass through the loop body *)

Section LoopBody.
Context {F : Type} `{Scalar F}.
Variable basis_values_PHI : BlockOPoints F -> ndarray2 F.
Variable compute_functional : list F -> FunctionalValues F.
Implicit Types (ns : Namespace F) (block : BlockOPoints F).

Local Abbreviation body := (loop_body basis_values_PHI compute_functional).
Local Abbreviation run := (run_blocks basis_values_PHI compute_functional).
Local Abbreviation delta := (block_delta basis_values_PHI compute_functional).
Local Abbreviation consistent := (block_consistent basis_values_PHI).
Local Abbreviation per_point := (functional_per_point compute_functional).
Local Abbreviation rho_of := (block_rho basis_values_PHI).
Local Abbreviation energy_of :=
  (block_energy basis_values_PHI compute_functional).
Local Abbreviation contribution_of :=
  (block_contribution basis_values_PHI compute_functional).
Local Abbreviation update_of :=
  (block_update basis_values_PHI compute_functional).

(** The body reads [D] and the block, then updates [V] and [xc_e]. *)
Lemma loop_body_delta ns block :
  body ns block =
  delta (D ns) block ≫= fun eX =>
  iadd_outer (V ns) (np_array (functions_local_to_global block)) eX.2
    ≫= fun V' =>
  Ok {| D := D ns; V := V'; xc_e := (xc_e ns + eX.1)%F |}.
Proof.
  unfold loop_body, block_delta, matrix_accumulator.
  destruct (getitem_outer _ _) as [lD|]; simpl; [|done].
  destruct (density_assembler _ _) as [rho|]; simpl; [|done].
  destruct (einsum_a_a _ _) as [e|]; simpl; [|done].
  destruct (einsum_pb_p_p_pa_ab _ _ _ _) as [Vtmp|]; simpl; [|done].
  destruct (add2 _ _) as [S|]; simpl; done.
Qed.

Lemma loop_body_Ok ns block ns' :
  body ns block = Ok ns' <->
  exists e X V',
    delta (D ns) block = Ok (e, X) /\
    iadd_outer (V ns) (np_array (functions_local_to_global block)) X
    = Ok V' /\
    ns' = {| D := D ns; V := V'; xc_e := (xc_e ns + e)%F |}.
Proof.
  rewrite loop_body_delta. split.
  - intros Hok. apply bind_Ok in Hok as ([e X] & Hd & Hok).
    apply bind_Ok in Hok as (V' & HV & [= <-]). by exists e, X, V'.
  - intros (e & X & V' & -> & HV & ->). simpl. by rewrite HV.
Qed.

(** On a consistent block the increments are the formulas of the
    specification. *)
Lemma block_rho_length n D0 block :
  length (rho_of n D0 block) = npoints block.
Proof. apply length_tabulate1. Qed.

Lemma block_delta_consistent n D0 block :
  square n D0 -> consistent n block -> per_point ->
  exists X,
    delta D0 block = Ok (energy_of n D0 block, X) /\
    nrows X = length (functions_local_to_global block) /\
    ncols X = length (functions_local_to_global block) /\
    forall a b,
      a < length (functions_local_to_global block) ->
      b < length (functions_local_to_global block) ->
      get2 X a b = contribution_of n D0 block a b.
Proof.
  intros [HDr HDc] [Hne Hlpos Hprows Hpcols Hw] Hfun.
  unfold block_delta, shape0.
  set (lpos := functions_local_to_global block) in *.
  change (ix_data (np_array lpos)) with lpos.
  set (L := length lpos).
  set (P := npoints block) in *.
  set (PHI := basis_values_PHI block) in *.
  destruct (getitem_outer_spec D0 lpos) as (lD & HlD & Hr & Hc & Hget).
  { done. } { by rewrite HDr. } { by rewrite HDc. }
  rewrite HlD. simpl.
  assert (nrows (slice2 PHI P L) = P) as HnP by (simpl; lia).
  assert (ncols (slice2 PHI P L) = L) as HnL by (simpl; lia).
  rewrite (density_assembler_spec P L) by done. simpl.
  assert (tabulate1 P (rho_formula L (slice2 PHI P L) lD)
          = rho_of n D0 block) as ->.
  { unfold block_rho, block_globals. fold lpos PHI P.
    rewrite length_fmap. fold L.
    apply tabulate1_ext. intros p Hp. unfold rho_formula. f_equal.
    apply sum_upto_ext. intros mu Hmu. apply sum_upto_ext. intros nu Hnu.
    rewrite !get2_slice2 by done. rewrite Hget by done.
    by rewrite HDr, HDc. }
  destruct (Hfun (rho_of n D0 block)) as [HfV HfR].
  rewrite block_rho_length in HfV, HfR. fold P in HfV, HfR.
  rewrite (einsum_a_a_spec P); [|done|rewrite length_slice1; lia]. simpl.
  rewrite (einsum_pb_p_p_pa_ab_spec P L);
    [|done|done|rewrite length_slice1; lia|done]. simpl.
  rewrite symmetrise_spec. simpl.
  eexists. split.
  { do 2 f_equal. unfold block_energy. fold P.
    apply sum_upto_ext. intros p Hp. by rewrite get1_slice1. }
  split; [done|]. split; [done|].
  - intros a b Ha Hb. rewrite get2_symmetrised by done.
    unfold block_contribution, symmetrized. fold P PHI.
    assert (forall a b, a < L -> b < L ->
      Vtmp_formula P (slice2 PHI P L)
        (slice1 (ret_V_RHO_A (compute_functional (rho_of n D0 block))) P)
        (w block) a b =
      Vtmp_formula P PHI
        (ret_V_RHO_A (compute_functional (rho_of n D0 block)))
        (w block) a b) as HV.
    { intros a' b' Ha' Hb'. unfold Vtmp_formula.
      apply sum_upto_ext. intros p Hp.
      by rewrite !get2_slice2, get1_slice1 by done. }
    by rewrite !HV.
Qed.

Lemma loop_body_consistent n ns block :
  square n (D ns) -> square n (V ns) -> wf2 (V ns) ->
  consistent n block -> per_point ->
  body ns block =
  Ok {| D := D ns;
        V := tabulate2 n n (fun i j =>
               update_of n (D ns) block i j (get2 (V ns) i j));
        xc_e := (xc_e ns + energy_of n (D ns) block)%F |}.
Proof.
  intros HD [HVr HVc] Hwf Hbc Hfun.
  destruct (block_delta_consistent n (D ns) block HD Hbc Hfun)
    as (X & Hdelta & HXr & HXc & HX).
  rewrite loop_body_delta, Hdelta. simpl.
  destruct Hbc as [Hne Hlpos _ _ _].
  set (lpos := functions_local_to_global block) in *.
  assert (exists V', iadd_outer (V ns) (np_array lpos) X = Ok V') as [V' HV'].
  { eexists. apply iadd_outer_total; rewrite ?HVr, ?HVc; auto. }
  rewrite HV'. simpl. do 2 f_equal.
  rewrite (iadd_outer_tabulate _ _ _ _ Hwf HV'), HVr, HVc.
  apply tabulate2_ext. intros i j Hi Hj.
  unfold iadd_entry, block_update, block_globals. fold lpos.
  rewrite HVr, HVc.
  destruct (rindex (global_index n <$> lpos) i) as [a|] eqn:Ha; [|done].
  destruct (rindex (global_index n <$> lpos) j) as [b|] eqn:Hb; [|done].
  apply rindex_lt in Ha, Hb. rewrite length_fmap in Ha, Hb.
  unfold bget2. rewrite HXr, HXc, !bidx_lt by done.
  by rewrite HX.
Qed.

End LoopBody.

(** ** The loop *)

Section Loop.
Context {F : Type} `{Scalar F}.
Variable basis_values_PHI : BlockOPoints F -> ndarray2 F.
Variable compute_functional : list F -> FunctionalValues F.
Implicit Types (ns : Namespace F) (block : BlockOPoints F).

Local Abbreviation body := (loop_body basis_values_PHI compute_functional).
Local Abbreviation run := (run_blocks basis_values_PHI compute_functional).
Local Abbreviation delta := (block_delta basis_values_PHI compute_functional).
Local Abbreviation consistent := (block_consistent basis_values_PHI).
Local Abbreviation per_point := (functional_per_point compute_functional).
Local Abbreviation energy_of :=
  (block_energy basis_values_PHI compute_functional).
Local Abbreviation update_of :=
  (block_update basis_values_PHI compute_functional).

Lemma run_blocks_cons ns block rest ns'' :
  run ns (block :: rest) = Ok ns'' <->
  exists ns', body ns block = Ok ns' /\ run ns' rest = Ok ns''.
Proof. simpl. apply bind_Ok. Qed.

(** What every pass preserves, whether or not the block is consistent. *)
Lemma loop_body_frame ns block ns' :
  wf2 (V ns) -> body ns block = Ok ns' ->
  D ns' = D ns /\ wf2 (V ns') /\
  nrows (V ns') = nrows (V ns) /\ ncols (V ns') = ncols (V ns).
Proof.
  intros Hwf (e & X & V' & _ & HV' & ->)%loop_body_Ok. simpl.
  split; [done|]. by eapply iadd_outer_shape.
Qed.

Lemma wf2_initial (D0 : ndarray2 F) : wf2 (V (initial D0)).
Proof. apply wf2_tabulate2. Qed.

Lemma run_blocks_consistent n ns blocks :
  square n (D ns) -> square n (V ns) -> wf2 (V ns) ->
  Forall (consistent n) blocks -> per_point ->
  exists ns',
    run ns blocks = Ok ns' /\
    D ns' = D ns /\ square n (V ns') /\ wf2 (V ns') /\
    (forall i j, i < n -> j < n ->
       get2 (V ns') i j =
       foldl (fun x block => update_of n (D ns) block i j x)
         (get2 (V ns) i j) blocks) /\
    xc_e ns' =
    foldl (fun acc block => acc + energy_of n (D ns) block)%F
      (xc_e ns) blocks.
Proof.
  intros HD HV Hwf Hbs Hfun. revert ns HD HV Hwf.
  induction Hbs as [|block rest Hb Hrest IH]; intros ns HD HV Hwf.
  - exists ns. simpl. done.
  - simpl. rewrite (loop_body_consistent _ _ n) by done. simpl.
    set (ns1 := {| D := D ns; V := _; xc_e := _ |}).
    destruct (IH ns1) as (ns' & Hrun & HD' & HV' & Hwf' & Hget & He).
    { done. } { done. } { apply wf2_tabulate2. }
    exists ns'. split; [done|]. split; [done|]. split; [done|].
    split; [done|]. split; [|done].
    intros i j Hi Hj. rewrite Hget by done. subst ns1. simpl.
    by rewrite get2_tabulate2.
Qed.

End Loop.

(** ** The density assembler *)

Section DensityAssembler.
Context {F : Type} `{Scalar F}.

(** C1.  Given a block's [Phi] (points by local functions) and the local
    slice [lD] of [D] at the block's index list, the density assembler returns
    a vector with one entry per point, and entry [p] is
    [2 * sum_{mu nu} Phi[p,mu] * lD[mu,nu] * Phi[p,nu]]. *)
Theorem C1_density_assembler (D0 phi : ndarray2 F) (lpos : list Z) (P : nat) :
  lpos <> [] ->
  Forall (valid_index (nrows D0)) lpos ->
  Forall (valid_index (ncols D0)) lpos ->
  nrows phi = P -> ncols phi = length lpos ->
  exists lD rho,
    getitem_outer D0 (np_array lpos) = Ok lD /\
    (forall mu nu, mu < length lpos -> nu < length lpos ->
       get2 lD mu nu =
       get2 D0 (get_ix (global_index (nrows D0) <$> lpos) mu)
               (get_ix (global_index (ncols D0) <$> lpos) nu)) /\
    density_assembler phi lD = Ok rho /\
    length rho = P /\
    forall p, p < P ->
      rho !! p =
      Some (f_two * sum_upto (length lpos) (fun mu =>
                      sum_upto (length lpos) (fun nu =>
                        get2 phi p mu * get2 lD mu nu * get2 phi p nu)))%F.
Proof.
  intros Hne Hvr Hvc HP HL.
  destruct (getitem_outer_spec D0 lpos Hne Hvr Hvc)
    as (lD & HlD & Hr & Hc & Hget).
  exists lD, (tabulate1 P (rho_formula (length lpos) phi lD)).
  split; [done|]. split; [done|].
  split; [by apply density_assembler_spec|].
  split; [apply length_tabulate1|].
  intros p Hp. by rewrite lookup_tabulate1.
Qed.

End DensityAssembler.

Lemma C1_density_assembler_witness :
  exists lD rho,
    getitem_outer toy_D (np_array [0%Z; 1%Z]) = Ok lD /\
    (forall mu nu, mu < 2 -> nu < 2 ->
       get2 lD mu nu =
       get2 toy_D (get_ix (global_index 2 <$> [0%Z; 1%Z]) mu)
                  (get_ix (global_index 2 <$> [0%Z; 1%Z]) nu)) /\
    density_assembler (toy_PHI toy_block0) lD = Ok rho /\
    length rho = 2 /\
    forall p, p < 2 ->
      rho !! p =
      Some (f_two * sum_upto 2 (fun mu => sum_upto 2 (fun nu =>
              get2 (toy_PHI toy_block0) p mu * get2 lD mu nu
              * get2 (toy_PHI toy_block0) p nu)))%F.
Proof.
  apply (C1_density_assembler toy_D (toy_PHI toy_block0) [0%Z; 1%Z] 2).
  - discriminate.
  - repeat constructor; vm_compute; intros [=].
  - repeat constructor; vm_compute; intros [=].
  - reflexivity.
  - reflexivity.
Defined.

(** ** The two accumulators and the frame *)

Section Accumulators.
Context {F : Type} `{Scalar F}.
Variable basis_values_PHI : BlockOPoints F -> ndarray2 F.
Variable compute_functional : list F -> FunctionalValues F.
Implicit Types (ns : Namespace F) (block : BlockOPoints F).

Local Abbreviation body := (loop_body basis_values_PHI compute_functional).
Local Abbreviation run := (run_blocks basis_values_PHI compute_functional).
Local Abbreviation consistent := (block_consistent basis_values_PHI).
Local Abbreviation per_point := (functional_per_point compute_functional).
Local Abbreviation rho_of := (block_rho basis_values_PHI).
Local Abbreviation energy_of :=
  (block_energy basis_values_PHI compute_functional).
Local Abbreviation update_of :=
  (block_update basis_values_PHI compute_functional).

(** C2.  For a block, the matrix accumulator forms
    [Vtmp[a,b] = sum_p Phi[p,b] * v_rho[p] * w[p] * Phi[p,a]], symmetrises it
    to [0.5 * (Vtmp + Vtmp^T)] and adds entry [(a, b)] of the result to
    [V[lpos[a], lpos[b]]], leaving every other entry of [V] alone; over a
    sequence of blocks each entry of [V] collects, on top of its old value, the
    contributions of all the blocks that name it. *)
Theorem C2_matrix_accumulator (n : nat) ns :
  square n (D ns) -> square n (V ns) -> wf2 (V ns) ->
  functional_per_point compute_functional ->
  (forall block,
     block_consistent basis_values_PHI n block ->
     NoDup (block_globals n block) ->
     let g := block_globals n block in
     let rho := block_rho basis_values_PHI n (D ns) block in
     let v_rho := ret_V_RHO_A (compute_functional rho) in
     let Vtmp :=
       Vtmp_formula (npoints block) (basis_values_PHI block) v_rho (w block) in
     exists ns',
       loop_body basis_values_PHI compute_functional ns block = Ok ns' /\
       (forall a b, a < length g -> b < length g ->
          get2 (V ns') (get_ix g a) (get_ix g b) =
          (get2 (V ns) (get_ix g a) (get_ix g b)
           + f_half * (Vtmp a b + Vtmp b a))%F) /\
       (forall i j, i < n -> j < n -> i ∉ g \/ j ∉ g ->
          get2 (V ns') i j = get2 (V ns) i j)) /\
  (forall blocks,
     Forall (block_consistent basis_values_PHI n) blocks ->
     exists ns',
       run_blocks basis_values_PHI compute_functional ns blocks = Ok ns' /\
       forall i j, i < n -> j < n ->
         get2 (V ns') i j =
         foldl (fun x block =>
                  block_update basis_values_PHI compute_functional n (D ns)
                    block i j x)
           (get2 (V ns) i j) blocks).
Proof.
  intros HD HV Hwf Hfun. split.
  - intros block Hb Hnd g rho v_rho Vtmp.
    eexists. split; [by apply (loop_body_consistent _ _ n)|]. simpl.
    assert (forall a, a < length g -> get_ix g a < n) as Hlt.
    { intros a Ha. unfold get_ix.
      destruct (lookup_lt_is_Some_2 g a Ha) as [i Hi]. rewrite Hi. simpl.
      subst g. unfold block_globals in Hi.
      apply list_lookup_fmap_Some in Hi as (k & -> & Hk).
      apply global_index_lt.
      destruct Hb as [_ Hlpos _ _ _].
      by eapply (Forall_lookup_1 _ _ _ _ Hlpos). }
    assert (forall a, a < length g -> rindex g (get_ix g a) = Some a) as Hri.
    { intros a Ha. apply rindex_NoDup; [done|]. unfold get_ix.
      destruct (lookup_lt_is_Some_2 g a Ha) as [i Hi]. by rewrite Hi. }
    split.
    + intros a b Ha Hb'. rewrite get2_tabulate2 by auto.
      unfold block_update. fold g. by rewrite !Hri.
    + intros i j Hi Hj Hij. rewrite get2_tabulate2 by done.
      unfold block_update. fold g.
      destruct Hij as [Hn|Hn]; rewrite (rindex_not_elem _ _ Hn);
        [done | by destruct (rindex g i)].
  - intros blocks Hbs.
    destruct (run_blocks_consistent basis_values_PHI compute_functional
                n ns blocks HD HV Hwf Hbs Hfun)
      as (ns' & Hrun & _ & _ & _ & Hget & _).
    by exists ns'.
Qed.

(** C4.  The energy the cell ends with is the running sum, block after
    block from [0.0], of [sum_p w[p] * e[p]] over the block's points, [e]
    being the energy density the functional returns for the block. *)
Theorem C4_energy_running_sum (n : nat) (Vpot : VBase F) (D0 : ndarray2 F) :
  square n D0 ->
  Forall (block_consistent basis_values_PHI n) (blocks_of Vpot) ->
  functional_per_point compute_functional ->
  exists ns',
    xc_kernel basis_values_PHI compute_functional Vpot D0 = Ok ns' /\
    xc_e ns' =
    foldl (fun acc block =>
             acc + sum_upto (npoints block) (fun p =>
                     get1 (w block) p
                     * get1 (ret_V (compute_functional
                                      (block_rho basis_values_PHI n D0 block)))
                         p))%F
      f_zero (blocks_of Vpot).
Proof.
  intros HD Hbs Hfun. unfold xc_kernel.
  assert (square n (V (initial D0))) as HV by (destruct HD; by split).
  destruct (run_blocks_consistent basis_values_PHI compute_functional
              n (initial D0) (blocks_of Vpot) HD HV (wf2_initial D0) Hbs Hfun)
    as (ns' & Hrun & _ & _ & _ & _ & He).
  by exists ns'.
Qed.

(** With the arrays passed by value, a run that finishes hands back the [D]
    it was given. *)
Lemma run_blocks_keeps_D ns blocks ns' :
  run_blocks basis_values_PHI compute_functional ns blocks = Ok ns' ->
  D ns' = D ns.
Proof.
  revert ns. induction blocks as [|block rest IH]; intros ns; simpl.
  - by intros [= <-].
  - intros (ns1 & Hbody & Hrest)%bind_Ok.
    apply IH in Hrest. rewrite Hrest.
    by apply loop_body_Ok in Hbody as (e & X & V' & _ & _ & ->).
Qed.

End Accumulators.

Lemma toy_D_square : square 2 toy_D.
Proof. by split. Qed.

Lemma toy_consistent :
  Forall (block_consistent toy_PHI 2) (blocks_of toy_Vpot).
Proof.
  repeat constructor; simpl; try lia; try discriminate;
    vm_compute; intros [=].
Qed.

Lemma toy_per_point : functional_per_point toy_functional.
Proof. intros rho. simpl. lia. Qed.

Lemma toy_block0_consistent : block_consistent toy_PHI 2 toy_block0.
Proof.
  split; simpl; try lia; try discriminate.
  repeat constructor; vm_compute; intros [=].
Qed.

Lemma toy_block0_NoDup : NoDup (block_globals 2 toy_block0).
Proof. apply (bool_decide_unpack _). by vm_compute. Qed.

Lemma C2_matrix_accumulator_witness :
  (let g := block_globals 2 toy_block0 in
   let v_rho :=
     ret_V_RHO_A (toy_functional (block_rho toy_PHI 2 toy_D toy_block0)) in
   let Vtmp :=
     Vtmp_formula (npoints toy_block0) (toy_PHI toy_block0) v_rho
       (w toy_block0) in
   exists ns',
     loop_body toy_PHI toy_functional (initial toy_D) toy_block0 = Ok ns' /\
     (forall a b, a < length g -> b < length g ->
        get2 (V ns') (get_ix g a) (get_ix g b) =
        (get2 (V (initial toy_D)) (get_ix g a) (get_ix g b)
         + f_half * (Vtmp a b + Vtmp b a))%F) /\
     (forall i j, i < 2 -> j < 2 -> i ∉ g \/ j ∉ g ->
        get2 (V ns') i j = get2 (V (initial toy_D)) i j)) /\
  (exists ns',
     run_blocks toy_PHI toy_functional (initial toy_D) (blocks_of toy_Vpot)
     = Ok ns' /\
     forall i j, i < 2 -> j < 2 ->
       get2 (V ns') i j =
       foldl (fun x block =>
                block_update toy_PHI toy_functional 2 toy_D block i j x)
         (get2 (V (initial toy_D)) i j) (blocks_of toy_Vpot)).
Proof.
  split.
  - exact (proj1 (C2_matrix_accumulator toy_PHI toy_functional 2
                    (initial toy_D) toy_D_square (conj eq_refl eq_refl)
                    (wf2_initial toy_D) toy_per_point)
             toy_block0 toy_block0_consistent toy_block0_NoDup).
  - exact (proj2 (C2_matrix_accumulator toy_PHI toy_functional 2
                    (initial toy_D) toy_D_square (conj eq_refl eq_refl)
                    (wf2_initial toy_D) toy_per_point)
             (blocks_of toy_Vpot) toy_consistent).
Defined.

Lemma C4_energy_running_sum_witness :
  exists ns',
    xc_kernel toy_PHI toy_functional toy_Vpot toy_D = Ok ns' /\
    xc_e ns' =
    foldl (fun acc block =>
             acc + sum_upto (npoints block) (fun p =>
                     get1 (w block) p
                     * get1 (ret_V (toy_functional
                                      (block_rho toy_PHI 2 toy_D block))) p))%F
      f_zero (blocks_of toy_Vpot).
Proof.
  apply (C4_energy_running_sum toy_PHI toy_functional 2 toy_Vpot toy_D).
  - exact toy_D_square.
  - exact toy_consistent.
  - exact toy_per_point.
Defined.

(** ** The cell on the store *)

Section Store.
Context {F : Type} `{Scalar F}.
Variable basis_values_PHI : BlockOPoints F -> ndarray2 F.
Variable compute_functional : list F -> FunctionalValues F.
Implicit Types (m : Memory F) (block : BlockOPoints F).

Local Abbreviation body := (loop_body basis_values_PHI compute_functional).
Local Abbreviation run := (run_blocks basis_values_PHI compute_functional).
Local Abbreviation exec := (exec_body basis_values_PHI compute_functional).
Local Abbreviation execs :=
  (exec_blocks basis_values_PHI compute_functional).

(** The body on the store, exception by exception: what has been bound when
    each statement raises. *)
Lemma exec_body_unfold m block :
  exec block m =
  let lpos := np_array (functions_local_to_global block) in
  let phi :=
    slice2 (basis_values_PHI block) (npoints block) (shape0 lpos) in
  match getitem_outer (objects m !!! name_D m) lpos with
  | Raise e => (m, Raise e)
  | Ok lD =>
    let l := fresh (dom (objects m)) in
    let objs := <[l := lD]> (objects m) in
    match density_assembler phi lD with
    | Raise e =>
        (Mem objs (name_D m) (name_V m) (Some l) (name_xc_e m), Raise e)
    | Ok rho =>
      let ret := compute_functional rho in
      match einsum_a_a (w block) (slice1 (ret_V ret) (npoints block)) with
      | Raise e =>
          (Mem objs (name_D m) (name_V m) (Some l) (name_xc_e m), Raise e)
      | Ok e0 =>
        match matrix_accumulator (objs !!! name_V m) lpos phi
                (slice1 (ret_V_RHO_A ret) (npoints block)) (w block) with
        | Raise e =>
            (Mem objs (name_D m) (name_V m) (Some l) (name_xc_e m + e0)%F,
             Raise e)
        | Ok V' =>
            (Mem (<[name_V m := V']> objs) (name_D m) (name_V m) (Some l)
               (name_xc_e m + e0)%F,
             Ok ())
        end
      end
    end
  end.
Proof.
  unfold exec_body, matrix_accumulator, mbind, cmd_bind, load, lift, alloc,
    bind_lD, iadd_xc_e, iadd_outer_V.
  cbn [fst snd objects name_D name_V name_lD name_xc_e].
  destruct (getitem_outer _ _) as [lD|]; [|done].
  destruct (density_assembler _ _) as [rho|]; [|done].
  destruct (einsum_a_a _ _) as [e0|]; [|done].
  destruct (einsum_pb_p_p_pa_ab _ _ _ _) as [Vtmp|]; [|done].
  cbn [result_bind].
  destruct (add2 _ _) as [S|]; [|done].
  cbn [result_bind].
  destruct (iadd_outer _ _ _); done.
Qed.

Lemma dom_insert_keep (objs : gmap loc (ndarray2 F)) l (M : ndarray2 F) l0 :
  l0 ∈ dom objs -> l0 ∈ dom (<[l := M]> objs).
Proof. rewrite dom_insert_L. set_solver. Qed.

Lemma separate_alloc m (M : ndarray2 F) x :
  separate m ->
  let l := fresh (dom (objects m)) in
  separate (Mem (<[l := M]> (objects m)) (name_D m) (name_V m) (Some l) x) /\
  l <> name_D m /\ l <> name_V m.
Proof.
  intros (HD & HV & Hne & _) l.
  assert (l ∉ dom (objects m)) as Hl by apply is_fresh.
  assert (l <> name_D m) as HlD by (intros ->; done).
  assert (l <> name_V m) as HlV by (intros ->; done).
  split; [|done]. unfold separate. simpl.
  repeat split; [by apply dom_insert_keep..|done|congruence].
Qed.

(** What a pass leaves alone, whether it ends well or raises: the bindings
    of [D] and [V], every object other than the one [V] is bound to, and
    the separation of the names. *)
Lemma exec_body_frame m block m' r :
  separate m -> exec block m = (m', r) ->
  name_D m' = name_D m /\ name_V m' = name_V m /\ separate m' /\
  dom (objects m) ⊆ dom (objects m') /\
  (forall l, l ∈ dom (objects m) -> l <> name_V m ->
     objects m' !! l = objects m !! l).
Proof.
  intros Hsep. rewrite exec_body_unfold. cbv zeta.
  destruct (getitem_outer _ _) as [lD|].
  2: { intros [= <- <-]. done. }
  set (l := fresh (dom (objects m))).
  assert (l ∉ dom (objects m)) as Hl by apply is_fresh.
  assert (forall x, separate
            (Mem (<[l := lD]> (objects m)) (name_D m) (name_V m) (Some l) x))
    as Hsep1.
  { intros x. by apply (separate_alloc m lD x). }
  assert (forall l0, l0 ∈ dom (objects m) ->
            <[l := lD]> (objects m) !! l0 = objects m !! l0) as Hold.
  { intros l0 Hl0. apply lookup_insert_ne. intros ->. done. }
  assert (dom (objects m) ⊆ dom (<[l := lD]> (objects m))) as Hsub.
  { intros l0. apply dom_insert_keep. }
  destruct (density_assembler _ _) as [rho|].
  2: { intros [= <- <-]. simpl. auto 10. }
  destruct (einsum_a_a _ _) as [e0|].
  2: { intros [= <- <-]. simpl. auto 10. }
  destruct (matrix_accumulator _ _ _ _ _) as [V'|].
  2: { intros [= <- <-]. simpl. auto 10. }
  intros [= <- <-]. simpl.
  split; [done|]. split; [done|].
  destruct (Hsep1 f_zero) as (HD1 & HV1 & Hne1 & HlD1). simpl in *.
  split.
  { unfold separate. simpl.
    repeat split; [by apply dom_insert_keep..|done|done]. }
  split.
  { intros l0 Hl0. by apply dom_insert_keep, Hsub. }
  intros l0 Hl0 HlV. rewrite lookup_insert_ne by done. by apply Hold.
Qed.

(** The store and the arrays passed by value tell one story, as long as [D]
    and [V] are two objects. *)
Lemma exec_body_view m block :
  separate m ->
  match exec block m with
  | (m', Ok _) => body (view m) block = Ok (view m')
  | (m', Raise e) => body (view m) block = Raise e
  end.
Proof.
  intros Hsep. rewrite exec_body_unfold. cbv zeta.
  unfold loop_body, view at 1 2 3 4. cbn [D V xc_e].
  destruct (getitem_outer _ _) as [lD|]; [|done].
  cbn [mbind result_bind].
  destruct (separate_alloc m lD f_zero Hsep) as (_ & HlD & HlV).
  destruct (density_assembler _ _) as [rho|]; [|done].
  cbn [mbind result_bind].
  destruct (einsum_a_a _ _) as [e0|]; [|done].
  cbn [mbind result_bind].
  rewrite lookup_total_insert_ne by done.
  destruct (matrix_accumulator _ _ _ _ _) as [V'|]; [|done].
  cbn [mbind result_bind]. unfold view. simpl.
  destruct Hsep as (_ & _ & Hne & _).
  rewrite lookup_total_insert_ne by done.
  rewrite lookup_total_insert_ne by done.
  by rewrite lookup_total_insert_eq.
Qed.

Lemma exec_blocks_frame m blocks m' r :
  separate m -> execs blocks m = (m', r) ->
  name_D m' = name_D m /\ name_V m' = name_V m /\ separate m' /\
  dom (objects m) ⊆ dom (objects m') /\
  (forall l, l ∈ dom (objects m) -> l <> name_V m ->
     objects m' !! l = objects m !! l).
Proof.
  revert m. induction blocks as [|block rest IH]; intros m Hsep.
  - intros [= <- <-]. done.
  - simpl. unfold mbind, cmd_bind.
    destruct (exec block m) as [m1 [[]|e]] eqn:Hbody.
    + destruct (exec_body_frame _ _ _ _ Hsep Hbody)
        as (HD1 & HV1 & Hsep1 & Hsub1 & Hold1).
      intros Hrest.
      destruct (IH m1 Hsep1 Hrest) as (HD' & HV' & Hsep' & Hsub' & Hold').
      split; [congruence|]. split; [congruence|]. split; [done|].
      split; [by etrans|].
      intros l Hl HlV. rewrite Hold', Hold1; [done|done|done| |congruence].
      by apply Hsub1.
    + intros [= <- <-]. by apply (exec_body_frame m block m1 (Raise e)).
Qed.

Lemma exec_blocks_view m blocks :
  separate m ->
  match execs blocks m with
  | (m', Ok _) => run (view m) blocks = Ok (view m')
  | (m', Raise e) => run (view m) blocks = Raise e
  end.
Proof.
  revert m. induction blocks as [|block rest IH]; intros m Hsep; [done|].
  simpl. unfold mbind at 1, cmd_bind.
  pose proof (exec_body_view m block Hsep) as Hview.
  destruct (exec block m) as [m1 [[]|e]] eqn:Hbody.
  - rewrite Hview. cbn [mbind result_bind]. apply IH.
    by apply (exec_body_frame m block m1 (Ok ())).
  - by rewrite Hview.
Qed.

Lemma exec_start_separate (alive : gmap loc (ndarray2 F)) (Da : ndarray2 F) :
  let m0 := exec_start alive Da in
  separate m0 /\ objects m0 !! name_D m0 = Some Da /\
  view m0 = initial Da /\
  (forall l, l ∈ dom alive -> l <> name_V m0 /\ objects m0 !! l = alive !! l).
Proof.
  unfold exec_start. cbv zeta.
  set (d := fresh (dom alive)).
  set (v := fresh (dom (<[d := Da]> alive))).
  assert (d ∉ dom alive) as Hd by apply is_fresh.
  assert (v ∉ dom (<[d := Da]> alive)) as Hv by apply is_fresh.
  assert (d ∈ dom (<[d := Da]> alive)) as Hdin.
  { apply elem_of_dom. rewrite lookup_insert_eq. by eexists. }
  assert (v <> d) as Hvd by (intros Heq; by rewrite Heq in Hv).
  split.
  { unfold separate. simpl.
    repeat split; [by apply dom_insert_keep| |done|done].
    apply elem_of_dom. rewrite lookup_insert_eq. by eexists. }
  split.
  { simpl. rewrite lookup_insert_ne by done. apply lookup_insert_eq. }
  split.
  { unfold view, initial. simpl.
    rewrite lookup_total_insert_eq, lookup_total_insert_ne by done.
    by rewrite lookup_total_insert_eq. }
  intros l Hl. simpl.
  assert (l <> v) as Hlv.
  { intros ->. apply Hv. by apply dom_insert_keep. }
  assert (l <> d) as Hld by (intros ->; done).
  split; [done|]. by rewrite !lookup_insert_ne.
Qed.

(** C10.  The cell never writes to [D].  [np.array] and [np.zeros_like] bind
    [D] and [V] to two new objects, every [lD] is a new object again, and the
    only statement that changes an object changes the one [V] is bound to.
    So whatever blocks are processed, and whether the loop finishes or
    raises, [D] is bound to an object that holds the matrix it was given,
    neither [V] nor [lD] is bound to that object, and every object that was
    alive before the cell is as it was. *)
Theorem C10_D_never_written (alive : gmap loc (ndarray2 F))
    (Da : ndarray2 F) blocks m' r :
  exec_blocks basis_values_PHI compute_functional blocks (exec_start alive Da)
  = (m', r) ->
  objects m' !! name_D m' = Some Da /\
  name_V m' <> name_D m' /\
  name_lD m' <> Some (name_D m') /\
  (forall l, l ∈ dom alive -> objects m' !! l = alive !! l).
Proof.
  intros Hrun.
  destruct (exec_start_separate alive Da) as (Hsep & HD & _ & Halive).
  destruct (exec_blocks_frame _ _ _ _ Hsep Hrun)
    as (HnD & HnV & (HDin & _ & Hne & HlD) & _ & Hold).
  split.
  { rewrite HnD, Hold; [done| |].
    - by destruct Hsep as (? & _).
    - by destruct Hsep as (_ & _ & Hvd & _). }
  split; [done|]. split; [done|].
  intros l Hl. destruct (Halive l Hl) as [HlV Hlook].
  rewrite Hold; [done| |done].
  apply elem_of_dom. rewrite Hlook. by apply elem_of_dom.
Qed.

End Store.

Lemma C10_D_never_written_witness :
  exists m' r,
    exec_blocks toy_PHI toy_functional (blocks_of toy_Vpot)
      (exec_start ∅ toy_D) = (m', r) /\
    objects m' !! name_D m' = Some toy_D /\
    name_V m' <> name_D m' /\
    name_lD m' <> Some (name_D m') /\
    (forall l, l ∈ dom (∅ : gmap loc (ndarray2 Qc)) ->
       objects m' !! l = (∅ : gmap loc (ndarray2 Qc)) !! l).
Proof.
  destruct (exec_blocks toy_PHI toy_functional (blocks_of toy_Vpot)
              (exec_start ∅ toy_D)) as [m' r] eqn:Hrun.
  exists m', r. split; [reflexivity|].
  apply (C10_D_never_written toy_PHI toy_functional ∅ toy_D
           (blocks_of toy_Vpot) m' r).
  exact Hrun.
Defined.

(** The separation of the two names is what keeps [D]: were [V] bound to the
    object of [D], the scatter-add of the first block would change it. *)
Lemma write_through_alias :
  ~ separate aliased_memory /\
  name_D (exec_body toy_PHI toy_functional toy_block0 aliased_memory).1
  = name_D aliased_memory /\
  get2 (objects (exec_body toy_PHI toy_functional toy_block0
                   aliased_memory).1 !!! name_D aliased_memory) 0 0
  <> get2 toy_D 0 0.
Proof.
  split; [by intros (_ & _ & Hne & _)|]. split; [reflexivity|].
  vm_compute. intros [=].
Qed.

(** ** Symmetry of the accumulated matrix *)

Section Symmetry.
Context {F : Type} `{Scalar F}.
Variable basis_values_PHI : BlockOPoints F -> ndarray2 F.
Variable compute_functional : list F -> FunctionalValues F.
Implicit Types (ns : Namespace F) (block : BlockOPoints F) (M X : ndarray2 F).

Local Abbreviation body := (loop_body basis_values_PHI compute_functional).
Local Abbreviation run := (run_blocks basis_values_PHI compute_functional).
Local Abbreviation delta := (block_delta basis_values_PHI compute_functional).

Hypothesis add_comm : forall x y : F, (x + y = y + x)%F.

Lemma get2_scaled_tabulate2_ge c L (g : nat -> nat -> F) i j :
  L <= i \/ L <= j -> get2 (scale2 c (tabulate2 L L g)) i j = f_zero.
Proof.
  intros Hij. unfold get2, scale2, tabulate2. simpl.
  rewrite !list_lookup_fmap.
  destruct (decide (i < L)) as [Hi|Hi].
  - rewrite lookup_seq_lt by done. simpl. unfold scale1.
    rewrite !list_lookup_fmap, lookup_seq_ge by lia. done.
  - rewrite lookup_seq_ge by lia. done.
Qed.

Lemma get2_symmetrised_swap L (g : nat -> nat -> F) i j :
  get2 (scale2 f_half (tabulate2 L L (fun a b => g a b + g b a)%F)) i j =
  get2 (scale2 f_half (tabulate2 L L (fun a b => g a b + g b a)%F)) j i.
Proof.
  destruct (decide (i < L /\ j < L)) as [[Hi Hj]|Hn].
  - rewrite !get2_symmetrised by done. unfold symmetrized.
    f_equal. apply add_comm.
  - rewrite !get2_scaled_tabulate2_ge by lia. done.
Qed.

(** The matrix a block adds is symmetric, by the commutativity of [+]
    alone. *)
Lemma block_delta_symmetric D0 block e X :
  delta D0 block = Ok (e, X) ->
  nrows X = ncols X /\ forall i j, get2 X i j = get2 X j i.
Proof.
  unfold block_delta. intros Hok.
  apply bind_Ok in Hok as (lD & _ & Hok).
  apply bind_Ok in Hok as (rho & _ & Hok).
  apply bind_Ok in Hok as (e' & _ & Hok).
  apply bind_Ok in Hok as (Vtmp & HVtmp & Hok).
  apply bind_Ok in Hok as (S & HS & [= _ <-]).
  unfold einsum_pb_p_p_pa_ab in HVtmp.
  apply bind_Ok in HVtmp as (P & _ & [= <-]).
  rewrite symmetrise_spec in HS. injection HS as <-.
  split; [done|]. intros i j. apply get2_symmetrised_swap.
Qed.

Lemma iadd_entry_symmetric n M (lpos : list Z) X i j :
  square n M -> nrows X = ncols X ->
  (forall i j, i < n -> j < n -> get2 M i j = get2 M j i) ->
  (forall i j, get2 X i j = get2 X j i) ->
  i < n -> j < n ->
  iadd_entry M lpos X i j = iadd_entry M lpos X j i.
Proof.
  intros [Hr Hc] HXs HM HX Hi Hj. unfold iadd_entry. rewrite Hr, Hc.
  destruct (rindex _ i) as [a|], (rindex _ j) as [b|]; auto.
  unfold bget2. rewrite HXs, (HM i j), HX by done. done.
Qed.

Lemma symmetric_state_initial n (D0 : ndarray2 F) :
  square n D0 -> symmetric_state n (V (initial D0)).
Proof.
  intros [Hr Hc]. split; [apply wf2_tabulate2|]. split; [by split|].
  intros i j Hi Hj. simpl. unfold zeros_like. rewrite Hr, Hc.
  by rewrite !get2_tabulate2.
Qed.

Lemma symmetric_state_body n ns block ns' :
  symmetric_state n (V ns) -> body ns block = Ok ns' ->
  symmetric_state n (V ns').
Proof.
  intros (Hwf & Hsq & Hsym) (e & X & V' & Hd & HV' & ->)%loop_body_Ok.
  simpl. apply block_delta_symmetric in Hd as [HXs HX].
  destruct (iadd_outer_shape _ _ _ _ Hwf HV') as (Hwf' & Hr' & Hc').
  destruct Hsq as [Hr Hc].
  split; [done|]. split; [split; congruence|].
  intros i j Hi Hj.
  rewrite !(get2_iadd_outer _ _ _ _ _ _ Hwf HV').
  by apply (iadd_entry_symmetric n).
Qed.

Lemma symmetric_state_run n ns blocks ns' :
  symmetric_state n (V ns) -> run ns blocks = Ok ns' ->
  symmetric_state n (V ns').
Proof.
  revert ns. induction blocks as [|block rest IH]; intros ns Hs; simpl.
  - by intros [= <-].
  - intros (ns1 & Hbody & Hrest)%bind_Ok.
    eapply IH; [|exact Hrest]. by eapply symmetric_state_body.
Qed.

Lemma symmetric_state_transpose n M : symmetric_state n M -> transpose M = M.
Proof.
  intros (Hwf & [Hr Hc] & Hsym).
  rewrite <- (tabulate2_get2 M Hwf) at 2.
  unfold transpose. rewrite Hr, Hc.
  apply tabulate2_ext. intros i j Hi Hj. by apply Hsym.
Qed.

(** C3.  Once the loop has gone through all blocks, in whatever order they
    were listed, [V] equals its transpose entry for entry.  Nothing is
    assumed of the arithmetic except that [x + y] and [y + x] are the same
    number, so rounding cannot break it. *)
Theorem C3_V_exactly_symmetric (n : nat) (D0 : ndarray2 F)
    (blocks : list (BlockOPoints F)) ns' :
  square n D0 ->
  run_blocks basis_values_PHI compute_functional (initial D0) blocks = Ok ns' ->
  transpose (V ns') = V ns'.
Proof.
  intros HD Hrun. apply (symmetric_state_transpose n).
  eapply symmetric_state_run; [|exact Hrun].
  by apply symmetric_state_initial.
Qed.

End Symmetry.

Lemma C3_V_exactly_symmetric_witness :
  exists ns',
    run_blocks toy_PHI toy_functional (initial toy_D) (blocks_of toy_Vpot)
    = Ok ns' /\ transpose (V ns') = V ns'.
Proof.
  eexists. split; [reflexivity|].
  apply (@C3_V_exactly_symmetric Qc Qc_scalar toy_PHI toy_functional
           Qcplus_comm 2 toy_D (blocks_of toy_Vpot)).
  - exact toy_D_square.
  - reflexivity.
Defined.

(** ** Reordering the blocks *)

Section Reordering.
Context {F : Type} `{Scalar F}.
Variable basis_values_PHI : BlockOPoints F -> ndarray2 F.
Variable compute_functional : list F -> FunctionalValues F.
Implicit Types (ns : Namespace F) (block : BlockOPoints F) (M X : ndarray2 F).

Local Abbreviation body := (loop_body basis_values_PHI compute_functional).
Local Abbreviation run := (run_blocks basis_values_PHI compute_functional).

Hypothesis add_comm : forall x y : F, (x + y = y + x)%F.
Hypothesis add_assoc : forall x y z : F, (x + (y + z) = (x + y) + z)%F.

Lemma add_swap (x y z : F) : (x + y + z = x + z + y)%F.
Proof. by rewrite <- !add_assoc, (add_comm y z). Qed.

(** Two scatter-adds into the same array can be done in either order. *)
Lemma iadd_outer_swap M (l1 l2 : list Z) X1 X2 M1 M2 :
  wf2 M ->
  iadd_outer M (np_array l1) X1 = Ok M1 ->
  iadd_outer M1 (np_array l2) X2 = Ok M2 ->
  exists M1',
    iadd_outer M (np_array l2) X2 = Ok M1' /\
    iadd_outer M1' (np_array l1) X1 = Ok M2.
Proof.
  intros Hwf H1 H2.
  destruct (iadd_outer_shape _ _ _ _ Hwf H1) as (Hwf1 & Hr1 & Hc1).
  pose proof (iadd_outer_inv _ _ _ _ H1)
    as (Hne1 & Hv1r & Hv1c & Hd1r & Hd1c & _).
  pose proof (iadd_outer_inv _ _ _ _ H2)
    as (Hne2 & Hv2r & Hv2c & Hd2r & Hd2c & _).
  rewrite Hr1 in Hv2r. rewrite Hc1 in Hv2c.
  pose proof (iadd_outer_total M l2 X2 Hne2 Hv2r Hv2c Hd2r Hd2c) as H1'.
  destruct (iadd_outer_shape _ _ _ _ Hwf H1') as (Hwf1' & Hr1' & Hc1').
  eexists. split; [exact H1'|].
  set (M1' := setitem_outer M _ _ _) in *.
  rewrite <- Hr1' in Hv1r. rewrite <- Hc1' in Hv1c.
  pose proof (iadd_outer_total M1' l1 X1 Hne1 Hv1r Hv1c Hd1r Hd1c) as H2'.
  rewrite H2'. f_equal.
  rewrite (iadd_outer_tabulate _ _ _ _ Hwf1' H2').
  rewrite (iadd_outer_tabulate _ _ _ _ Hwf1 H2).
  rewrite Hr1, Hc1, Hr1', Hc1'.
  apply tabulate2_ext. intros i j Hi Hj.
  unfold iadd_entry.
  rewrite (get2_iadd_outer _ _ _ _ _ _ Hwf H1').
  rewrite (get2_iadd_outer _ _ _ _ _ _ Hwf H1).
  unfold iadd_entry. rewrite Hr1, Hc1, Hr1', Hc1'.
  destruct (rindex (global_index (nrows M) <$> l1) i),
           (rindex (global_index (ncols M) <$> l1) j),
           (rindex (global_index (nrows M) <$> l2) i),
           (rindex (global_index (ncols M) <$> l2) j);
    try done; apply add_swap.
Qed.

Lemma loop_body_swap ns b1 b2 ns1 ns2 :
  wf2 (V ns) ->
  body ns b1 = Ok ns1 -> body ns1 b2 = Ok ns2 ->
  exists ns1', body ns b2 = Ok ns1' /\ body ns1' b1 = Ok ns2.
Proof.
  intros Hwf (e1 & X1 & V1 & Hd1 & HV1 & ->)%loop_body_Ok.
  intros (e2 & X2 & V2 & Hd2 & HV2 & ->)%loop_body_Ok. simpl in *.
  destruct (iadd_outer_swap _ _ _ _ _ _ _ Hwf HV1 HV2) as (V1' & HV1' & HV2').
  exists {| D := D ns; V := V1'; xc_e := (xc_e ns + e2)%F |}. split.
  - apply loop_body_Ok. by exists e2, X2, V1'.
  - apply loop_body_Ok. exists e1, X1, V2. simpl.
    split; [done|]. split; [done|]. f_equal. apply add_swap.
Qed.

Lemma run_blocks_Permutation blocks blocks' :
  blocks ≡ₚ blocks' ->
  forall ns r, wf2 (V ns) -> run ns blocks = Ok r -> run ns blocks' = Ok r.
Proof.
  induction 1 as [|x l l' Hperm IH|x y l|l l' l'' _ IH1 _ IH2];
    intros ns r Hwf Hrun.
  - done.
  - apply run_blocks_cons in Hrun as (ns1 & Hbody & Hrest).
    apply run_blocks_cons. exists ns1. split; [done|].
    apply IH; [|done]. by eapply loop_body_frame.
  - apply run_blocks_cons in Hrun as (ns1 & Hb1 & Hrun).
    apply run_blocks_cons in Hrun as (ns2 & Hb2 & Hrest).
    destruct (loop_body_swap _ _ _ _ _ Hwf Hb1 Hb2) as (ns1' & Hb1' & Hb2').
    apply run_blocks_cons. exists ns1'. split; [done|].
    apply run_blocks_cons. by exists ns2.
  - by apply IH2, IH1.
Qed.

(** C6.  Over exact arithmetic (here: [+] associative and commutative) the
    energy and the matrix the loop ends with do not depend on the order in
    which the blocks are processed. *)
Theorem C6_block_order_invariance (D0 : ndarray2 F)
    (blocks blocks' : list (BlockOPoints F)) r :
  blocks ≡ₚ blocks' ->
  run_blocks basis_values_PHI compute_functional (initial D0) blocks = Ok r ->
  run_blocks basis_values_PHI compute_functional (initial D0) blocks' = Ok r.
Proof.
  intros Hperm. apply run_blocks_Permutation; [done|]. apply wf2_initial.
Qed.

End Reordering.

Lemma C6_block_order_invariance_witness :
  exists r,
    run_blocks toy_PHI toy_functional (initial toy_D) [toy_block0; toy_block1]
    = Ok r /\
    run_blocks toy_PHI toy_functional (initial toy_D) [toy_block1; toy_block0]
    = Ok r.
Proof.
  eexists. split; [reflexivity|].
  apply (@C6_block_order_invariance Qc Qc_scalar toy_PHI toy_functional
           Qcplus_comm Qcplus_assoc toy_D [toy_block0; toy_block1]).
  - apply perm_swap.
  - reflexivity.
Defined.

(** ** Blocks without basis functions, and blocks that do not fit *)

Section EdgeCases.
Context {F : Type} `{Scalar F}.
Variable basis_values_PHI : BlockOPoints F -> ndarray2 F.
Variable compute_functional : list F -> FunctionalValues F.
Implicit Types (ns : Namespace F) (block : BlockOPoints F) (M X : ndarray2 F).

Local Abbreviation body := (loop_body basis_values_PHI compute_functional).
Local Abbreviation accepted := (block_accepted basis_values_PHI).

Lemma exec_blocks_app (m : Memory F) before after :
  exec_blocks basis_values_PHI compute_functional (before ++ after) m =
  match exec_blocks basis_values_PHI compute_functional before m with
  | (m1, Ok _) =>
      exec_blocks basis_values_PHI compute_functional after m1
  | (m1, Raise e) => (m1, Raise e)
  end.
Proof.
  revert m. induction before as [|b before IH]; intros m; [done|].
  simpl. unfold mbind, cmd_bind.
  destruct (exec_body _ _ b m) as [m1 [[]|e]]; [apply IH|done].
Qed.

(** C8, as the code has it.  A block with an empty index list is not
    processed: [np.array] makes a float64 array of the empty list, and the
    gather of the local slice of [D], the first statement of the body that
    can fail, refuses it with an [IndexError].  The memory at the exception
    is the memory the block found: no object has been changed and no name
    rebound, so [V] and [xc_e] hold what the blocks before had made of
    them.  The exception ends the loop. *)
Theorem C8_empty_block ns (m : Memory F) block rest :
  functions_local_to_global block = [] ->
  getitem_outer (D ns) (np_array (functions_local_to_global block))
  = Raise IndexError /\
  loop_body basis_values_PHI compute_functional ns block = Raise IndexError /\
  run_blocks basis_values_PHI compute_functional ns (block :: rest)
  = Raise IndexError /\
  exec_body basis_values_PHI compute_functional block m
  = (m, Raise IndexError) /\
  forall before m1,
    exec_blocks basis_values_PHI compute_functional before m = (m1, Ok ()) ->
    exec_blocks basis_values_PHI compute_functional
      (before ++ block :: rest) m
    = (m1, Raise IndexError).
Proof.
  intros Hlpos.
  assert (forall M : ndarray2 F,
            getitem_outer M (np_array (functions_local_to_global block))
            = Raise IndexError) as Hget.
  { intros M. rewrite Hlpos. apply getitem_outer_nil. }
  assert (body ns block = Raise IndexError) as Hbody.
  { unfold loop_body. by rewrite Hget. }
  assert (forall m0 : Memory F,
            exec_body basis_values_PHI compute_functional block m0
            = (m0, Raise IndexError)) as Hexec.
  { intros m0. rewrite exec_body_unfold. cbv zeta. by rewrite Hget. }
  split; [done|]. split; [done|].
  split; [simpl; by rewrite Hbody|]. split; [done|].
  intros before m1 Hbefore. rewrite exec_blocks_app, Hbefore. simpl.
  unfold mbind, cmd_bind. by rewrite Hexec.
Qed.

Lemma broadcast_dims_four_Ok a b c d :
  broadcast_dims [a; b; c; a] = Ok d -> stretches a c.
Proof.
  unfold broadcast_dims, stretches. simpl. unfold broadcast_dim.
  repeat (case_decide; simpl; try lia); intros [=]; lia.
Qed.

Lemma loop_body_accepted ns block ns' :
  body ns block = Ok ns' -> accepted (D ns) block.
Proof.
  intros (e & X & V' & Hd & HV' & _)%loop_body_Ok.
  unfold block_delta in Hd.
  apply bind_Ok in Hd as (lD & HlD & Hd).
  apply bind_Ok in Hd as (rho & Hrho & Hd).
  apply bind_Ok in Hd as (e' & _ & Hd).
  apply bind_Ok in Hd as (Vtmp & HVtmp & Hd).
  apply bind_Ok in Hd as (S & HS & [= _ <-]).
  apply getitem_outer_inv in HlD as (Hne & Hvr & Hvc & _ & _).
  unfold einsum_pb_p_p_pa_ab in HVtmp.
  apply bind_Ok in HVtmp as (P & HP & [= <-]).
  apply broadcast_dims_four_Ok in HP.
  rewrite symmetrise_spec in HS. injection HS as <-.
  apply iadd_outer_inv in HV' as (_ & _ & _ & _ & Hc & _).
  unfold shape0 in Hc, HP. simpl in Hc, HP.
  split; [done|]. split; [done|]. split; [done|]. split; [lia|done].
Qed.

(** C9, as the code has it.  The loop runs to its end only if, for every
    block, the index list is not empty, each index lies within both axes of
    [D], [Phi] has at least as many columns as the index list has entries or
    exactly one, and the rows of [Phi] within the block are as many as the
    weights unless one of the two counts is 1.  A block that breaks one of
    these makes NumPy raise, and the loop ends without a result. *)
Theorem C9_detected_mismatches ns blocks ns' :
  run_blocks basis_values_PHI compute_functional ns blocks = Ok ns' ->
  Forall (block_accepted basis_values_PHI (D ns)) blocks.
Proof.
  revert ns. induction blocks as [|block rest IH]; intros ns Hrun.
  - constructor.
  - apply run_blocks_cons in Hrun as (ns1 & Hbody & Hrest).
    constructor; [by eapply loop_body_accepted|].
    apply loop_body_Ok in Hbody as Hns1.
    destruct Hns1 as (e & X & V' & _ & _ & ->).
    by apply IH in Hrest.
Qed.

End EdgeCases.

Lemma Qc_exact_arithmetic : exact_arithmetic (1%Qc).
Proof.
  split.
  - constructor; intros; simpl; ring.
  - apply Qc_is_canon. reflexivity.
  - apply Qc_is_canon. reflexivity.
Qed.

Lemma C8_empty_block_witness :
  getitem_outer (D (initial toy_D))
    (np_array (functions_local_to_global empty_block))
  = Raise IndexError /\
  loop_body toy_PHI toy_functional (initial toy_D) empty_block
  = Raise IndexError /\
  run_blocks toy_PHI toy_functional (initial toy_D) [empty_block; toy_block0]
  = Raise IndexError /\
  exec_body toy_PHI toy_functional empty_block (exec_start ∅ toy_D)
  = (exec_start ∅ toy_D, Raise IndexError) /\
  forall before m1,
    exec_blocks toy_PHI toy_functional before (exec_start ∅ toy_D)
    = (m1, Ok ()) ->
    exec_blocks toy_PHI toy_functional
      (before ++ empty_block :: [toy_block0]) (exec_start ∅ toy_D)
    = (m1, Raise IndexError).
Proof.
  apply (C8_empty_block toy_PHI toy_functional (initial toy_D)
           (exec_start ∅ toy_D) empty_block [toy_block0]).
  reflexivity.
Defined.

(** C8 as stated fails: processing a block without basis functions raises. *)
Lemma C8_counterexample :
  functions_local_to_global empty_block = [] /\
  ~ is_Ok (loop_body toy_PHI toy_functional (initial toy_D) empty_block).
Proof. split; [reflexivity|]. intros []. Qed.

Lemma C9_detected_mismatches_witness :
  exists ns',
    run_blocks toy_PHI toy_functional (initial toy_D) (blocks_of toy_Vpot)
    = Ok ns' /\
    Forall (block_accepted toy_PHI toy_D) (blocks_of toy_Vpot).
Proof.
  eexists. split; [reflexivity|].
  eapply (C9_detected_mismatches toy_PHI toy_functional (initial toy_D)
            (blocks_of toy_Vpot)).
  reflexivity.
Defined.

(** C9 as stated fails.  A buffer with one column for a block of two basis
    functions is an inconsistency between [Phi] and the index list, and NumPy
    stretches the single column instead of raising; a buffer with three
    columns is cut to two by the slice, without a word. *)
Lemma C9_counterexample :
  (~ shapes_agree narrow_PHI toy_D toy_block0 /\
   is_Ok (loop_body narrow_PHI toy_functional (initial toy_D) toy_block0)) /\
  (~ shapes_agree wide_PHI toy_D toy_block0 /\
   is_Ok (loop_body wide_PHI toy_functional (initial toy_D) toy_block0)).
Proof.
  split; (split; [|exact I]); intros (_ & Hcols & _); simpl in Hcols;
    discriminate Hcols.
Qed.

(** ** Finite sums over exact arithmetic *)

Section Sums.
Context {F : Type} `{Scalar F}.
Variable one : F.
Hypothesis EA : exact_arithmetic one.

Add Ring F_semiring : (ea_semiring one EA).

Lemma half_double (x : F) : (f_half * (x + x))%F = x.
Proof.
  transitivity (f_half * f_two * x)%F.
  - rewrite (ea_two one EA). ring.
  - rewrite (ea_half one EA). ring.
Qed.

Lemma sum_upto_zero n : sum_upto n (fun _ => f_zero) = f_zero.
Proof. induction n as [|n IH]; simpl; [done|]. rewrite IH. ring. Qed.

Lemma sum_upto_add n (f g : nat -> F) :
  sum_upto n (fun i => f i + g i)%F = (sum_upto n f + sum_upto n g)%F.
Proof. induction n as [|n IH]; simpl; [ring|]. rewrite IH. ring. Qed.

Lemma sum_upto_mul_l n c (f : nat -> F) :
  (c * sum_upto n f)%F = sum_upto n (fun i => c * f i)%F.
Proof. induction n as [|n IH]; simpl; [ring|]. rewrite <- IH. ring. Qed.

Lemma sum_upto_mul_r n c (f : nat -> F) :
  (sum_upto n f * c)%F = sum_upto n (fun i => f i * c)%F.
Proof. induction n as [|n IH]; simpl; [ring|]. rewrite <- IH. ring. Qed.

Lemma sum_upto_exchange n m (f : nat -> nat -> F) :
  sum_upto n (fun i => sum_upto m (fun j => f i j)) =
  sum_upto m (fun j => sum_upto n (fun i => f i j)).
Proof.
  induction n as [|n IH]; simpl.
  - by rewrite sum_upto_zero.
  - by rewrite IH, sum_upto_add.
Qed.

Lemma sum_upto_delta n k (g : nat -> F) :
  k < n ->
  sum_upto n (fun i => if decide (i = k) then g i else f_zero) = g k.
Proof.
  induction n as [|n IH]; intros Hk; simpl; [lia|].
  destruct (decide (n = k)) as [->|Hne].
  - rewrite (sum_upto_ext k _ (fun _ => f_zero)).
    + rewrite sum_upto_zero. ring.
    + intros i Hi. case_decide; [lia|done].
  - rewrite IH by lia. ring.
Qed.

(** Summing over the positions an index list names is summing over the list
    itself. *)
Lemma sum_upto_pushforward n L (g : nat -> nat) (x h : nat -> F) :
  (forall mu, mu < L -> g mu < n) ->
  sum_upto n (fun i => pushforward L g x i * h i)%F =
  sum_upto L (fun mu => x mu * h (g mu))%F.
Proof.
  intros Hg. unfold pushforward.
  rewrite (sum_upto_ext n _ (fun i => sum_upto L (fun mu =>
             if decide (i = g mu) then x mu * h i else f_zero)%F)).
  - rewrite sum_upto_exchange. apply sum_upto_ext. intros mu Hmu.
    by rewrite (sum_upto_delta n (g mu) (fun i => x mu * h i)%F) by auto.
  - intros i Hi. rewrite sum_upto_mul_r. apply sum_upto_ext. intros mu Hmu.
    repeat case_decide; try congruence; ring.
Qed.

(** The quadratic form of the gathered slice is a quadratic form of [D]. *)
Lemma quadratic_form_gather n L (g : nat -> nat) (x : nat -> F)
    (q : nat -> nat -> F) :
  (forall mu, mu < L -> g mu < n) ->
  sum_upto L (fun mu => sum_upto L (fun nu =>
    x mu * q (g mu) (g nu) * x nu))%F =
  sum_upto n (fun i => sum_upto n (fun j =>
    pushforward L g x i * q i j * pushforward L g x j))%F.
Proof.
  intros Hg. symmetry.
  rewrite (sum_upto_ext n _ (fun i =>
             pushforward L g x i
             * sum_upto L (fun nu => x nu * q i (g nu)))%F).
  - rewrite sum_upto_pushforward by done.
    apply sum_upto_ext. intros mu Hmu. rewrite sum_upto_mul_l.
    apply sum_upto_ext. intros nu Hnu. ring.
  - intros i Hi.
    rewrite <- (sum_upto_pushforward n L g x (fun j => q i j)) by done.
    rewrite sum_upto_mul_l. apply sum_upto_ext. intros j Hj. ring.
Qed.

End Sums.

(** ** Positive semidefinite densities *)

Section Positivity.
Context {F : Type} `{Scalar F}.
Variable one : F.
Variable le : F -> F -> Prop.
Hypothesis EA : exact_arithmetic one.
Hypothesis OA : ordered_arithmetic le.

Lemma get_ix_global_lt n (lpos : list Z) mu :
  Forall (valid_index n) lpos -> mu < length lpos ->
  get_ix (global_index n <$> lpos) mu < n.
Proof.
  intros Hv Hmu. unfold get_ix.
  destruct (lookup_lt_is_Some_2 lpos mu Hmu) as [i Hi].
  rewrite list_lookup_fmap, Hi. simpl. apply global_index_lt.
  by eapply (Forall_lookup_1 _ _ _ _ Hv).
Qed.

(** A slice gathered from a positive semidefinite matrix is positive
    semidefinite, whether or not the index list repeats a position. *)
Lemma positive_semidefinite_gather n (D0 lD : ndarray2 F) (lpos : list Z) :
  square n D0 -> positive_semidefinite le n D0 ->
  Forall (valid_index n) lpos ->
  getitem_outer D0 (np_array lpos) = Ok lD ->
  positive_semidefinite le (length lpos) lD.
Proof.
  intros [Hr Hc] Hpsd Hv HlD x.
  pose proof (getitem_outer_inv _ _ _ HlD) as (Hne & _).
  destruct (getitem_outer_spec D0 lpos) as (lD' & HlD' & _ & _ & Hget).
  { done. } { by rewrite Hr. } { by rewrite Hc. }
  rewrite HlD in HlD'. injection HlD' as <-.
  rewrite Hr, Hc in Hget.
  set (g := get_ix (global_index n <$> lpos)) in *.
  rewrite (sum_upto_ext _ _ (fun mu => sum_upto (length lpos) (fun nu =>
             x mu * get2 D0 (g mu) (g nu) * x nu))%F).
  - rewrite (quadratic_form_gather one EA n (length lpos) g x (get2 D0)).
    + apply Hpsd.
    + intros mu Hmu. by apply get_ix_global_lt.
  - intros mu Hmu. apply sum_upto_ext. intros nu Hnu.
    by rewrite Hget.
Qed.

(** C7, as the code has it.  Over exact ordered arithmetic: if [D] is
    positive semidefinite, then so is the local slice of any block, and every
    entry of the block's density vector is non-negative.  (In doubles an
    entry can round to a negative number.) *)
Theorem C7_density_nonnegative (n P : nat) (D0 phi : ndarray2 F)
    (lpos : list Z) :
  square n D0 -> positive_semidefinite le n D0 ->
  lpos <> [] -> Forall (valid_index n) lpos ->
  nrows phi = P -> ncols phi = length lpos ->
  exists lD rho,
    getitem_outer D0 (np_array lpos) = Ok lD /\
    positive_semidefinite le (length lpos) lD /\
    density_assembler phi lD = Ok rho /\
    length rho = P /\
    forall p r, rho !! p = Some r -> le f_zero r.
Proof.
  intros HD Hpsd Hne Hv HP HL.
  destruct HD as [Hr Hc].
  destruct (getitem_outer_spec D0 lpos) as (lD & HlD & HlDr & HlDc & _).
  { done. } { by rewrite Hr. } { by rewrite Hc. }
  assert (positive_semidefinite le (length lpos) lD) as HpsdL.
  { by apply (positive_semidefinite_gather n D0). }
  exists lD, (tabulate1 P (rho_formula (length lpos) phi lD)).
  split; [done|]. split; [done|].
  split; [by apply density_assembler_spec|].
  split; [apply length_tabulate1|].
  intros p r Hp.
  assert (p < P) as HpP.
  { apply lookup_lt_Some in Hp. by rewrite length_tabulate1 in Hp. }
  rewrite lookup_tabulate1 in Hp by done. injection Hp as <-.
  unfold rho_formula. apply (oa_mul le OA); [apply (oa_two le OA)|].
  apply (HpsdL (fun mu => get2 phi p mu)).
Qed.

End Positivity.

(** ** One block that covers everything *)

Lemma global_index_of_nat n i : i < n -> global_index n (Z.of_nat i) = i.
Proof. intros Hi. unfold global_index. case_decide; lia. Qed.

Lemma identity_mapping_valid n : Forall (valid_index n) (identity_mapping n).
Proof.
  unfold identity_mapping. apply Forall_fmap, Forall_forall.
  intros i Hi%elem_of_seq. unfold valid_index. simpl. lia.
Qed.

Lemma identity_mapping_globals n :
  global_index n <$> identity_mapping n = seq 0 n.
Proof.
  unfold identity_mapping. rewrite <- list_fmap_compose.
  rewrite <- (list_fmap_id (seq 0 n)) at 2.
  apply list_fmap_ext. intros k i Hi%lookup_seq. simpl.
  apply global_index_of_nat. lia.
Qed.

Lemma rindex_seq n i : i < n -> rindex (seq 0 n) i = Some i.
Proof.
  intros Hi. apply rindex_NoDup; [apply NoDup_seq|].
  by rewrite lookup_seq_lt.
Qed.

Lemma get_ix_seq n i : i < n -> get_ix (seq 0 n) i = i.
Proof. intros Hi. unfold get_ix. by rewrite lookup_seq_lt. Qed.

Section SingleBlock.
Context {F : Type} `{Scalar F}.
Variable basis_values_PHI : BlockOPoints F -> ndarray2 F.
Variable compute_functional : list F -> FunctionalValues F.
Variable one : F.
Hypothesis EA : exact_arithmetic one.

Add Ring F_semiring' : (ea_semiring one EA).

Local Abbreviation per_point := (functional_per_point compute_functional).

(** C5.  For a grid of one block that covers all points and whose index list
    is the identity on the whole basis, the blocked assembly ends with the
    matrix of the direct contraction over all points and basis functions,
    exactly, over exact arithmetic. *)
Theorem C5_single_block_matches_reference (n P : nat) (D0 : ndarray2 F)
    (block : BlockOPoints F) :
  0 < n -> square n D0 ->
  functions_local_to_global block = identity_mapping n ->
  npoints block = P ->
  nrows (basis_values_PHI block) = P ->
  ncols (basis_values_PHI block) = n ->
  length (w block) = P ->
  functional_per_point compute_functional ->
  exists ns',
    xc_kernel basis_values_PHI compute_functional (single_block block) D0
    = Ok ns' /\
    V ns' =
    reference_V compute_functional n P D0 (basis_values_PHI block) (w block).
Proof.
  intros Hn HD Hlpos HP HPr HPc Hw Hfun.
  assert (block_consistent basis_values_PHI n block) as Hbc.
  { split.
    - rewrite Hlpos. unfold identity_mapping. by destruct n; [lia|].
    - rewrite Hlpos. apply identity_mapping_valid.
    - lia.
    - rewrite Hlpos. unfold identity_mapping.
      rewrite length_fmap, length_seq. lia.
    - lia. }
  assert (square n (V (initial D0))) as HV by (destruct HD; by split).
  unfold xc_kernel, blocks_of. simpl.
  rewrite (loop_body_consistent _ _ n) by (done || apply wf2_initial).
  simpl. eexists. split; [reflexivity|]. simpl.
  assert (block_globals n block = seq 0 n) as Hg.
  { unfold block_globals. rewrite Hlpos. apply identity_mapping_globals. }
  assert (block_rho basis_values_PHI n D0 block =
          tabulate1 P (rho_formula n (basis_values_PHI block) D0)) as Hrho.
  { unfold block_rho. rewrite Hg, HP, length_seq.
    apply tabulate1_ext. intros p Hp. unfold rho_formula. f_equal.
    apply sum_upto_ext. intros mu Hmu. apply sum_upto_ext. intros nu Hnu.
    by rewrite !get_ix_seq. }
  unfold reference_V. apply tabulate2_ext. intros i j Hi Hj.
  unfold block_update. rewrite Hg, !rindex_seq by done.
  unfold zeros_like. destruct HD as [HDr HDc]. rewrite HDr, HDc.
  rewrite get2_tabulate2 by done.
  unfold block_contribution, symmetrized. rewrite Hrho, HP.
  set (f := ret_V_RHO_A _).
  set (PHI := basis_values_PHI block).
  set (S := sum_upto P (fun p =>
    get2 PHI p i * get2 PHI p j * get1 (w block) p * get1 f p)%F).
  assert (Vtmp_formula P PHI f (w block) i j = S) as ->.
  { unfold Vtmp_formula, S. apply sum_upto_ext. intros p Hp. ring. }
  assert (Vtmp_formula P PHI f (w block) j i = S) as ->.
  { unfold Vtmp_formula, S. apply sum_upto_ext. intros p Hp. ring. }
  rewrite (half_double one EA). ring.
Qed.

End SingleBlock.

(** ** The toy system satisfies the hypotheses *)

Lemma Qc_mul_nonneg (a b : Qc) :
  Qcle 0%Qc a -> Qcle 0%Qc b -> Qcle 0%Qc (a * b)%Qc.
Proof.
  intros Ha Hb. replace 0%Qc with (0 * b)%Qc by ring.
  by apply Qcmult_le_compat_r.
Qed.

Lemma Qc_square_nonneg (a : Qc) : Qcle 0%Qc (a * a)%Qc.
Proof.
  destruct (Qclt_le_dec a 0%Qc) as [Hneg|Hpos].
  - replace (a * a)%Qc with ((- a) * (- a))%Qc by ring.
    assert (Qcle 0%Qc (- a)%Qc) as Hna.
    { replace 0%Qc with (- 0)%Qc by ring.
      by apply Qcopp_le_compat, Qclt_le_weak. }
    by apply Qc_mul_nonneg.
  - by apply Qc_mul_nonneg.
Qed.

Lemma Qc_ordered_arithmetic : ordered_arithmetic Qcle.
Proof.
  split.
  - simpl. by vm_compute.
  - intros a b. simpl. apply Qc_mul_nonneg.
Qed.

Lemma toy_D_positive_semidefinite : positive_semidefinite Qcle 2 toy_D.
Proof.
  intros x. cbn -[Qcplus Qcmult Q2Qc Qcle].
  replace (_ + _)%Qc with (x 0%nat * x 0%nat + x 1%nat * x 1%nat)%Qc by ring.
  replace 0%Qc with (0 + 0)%Qc by ring.
  apply Qcplus_le_compat; apply Qc_square_nonneg.
Qed.

Lemma C7_density_nonnegative_witness :
  exists lD rho,
    getitem_outer toy_D (np_array [0%Z; 1%Z]) = Ok lD /\
    positive_semidefinite Qcle 2 lD /\
    density_assembler (toy_PHI toy_block0) lD = Ok rho /\
    length rho = 2 /\
    forall p r, rho !! p = Some r -> Qcle 0%Qc r.
Proof.
  apply (@C7_density_nonnegative Qc Qc_scalar 1%Qc Qcle Qc_exact_arithmetic
           Qc_ordered_arithmetic 2 2 toy_D (toy_PHI toy_block0)
           [0%Z; 1%Z]).
  - exact toy_D_square.
  - exact toy_D_positive_semidefinite.
  - discriminate.
  - repeat constructor; vm_compute; intros [=].
  - reflexivity.
  - reflexivity.
Defined.

Lemma cancelling_D_positive_semidefinite :
  positive_semidefinite Qcle 2 (cancelling_D 1%Qc (- 1)%Qc).
Proof.
  intros x. cbn -[Qcplus Qcmult Qcopp Q2Qc Qcle].
  replace (_ + _)%Qc
    with ((x 0%nat - x 1%nat) * (x 0%nat - x 1%nat))%Qc by ring.
  apply Qc_square_nonneg.
Qed.

(** The four products of the contraction at the point of [close_PHI] have a
    negative sum in each of the orders in which they can be added. *)
Lemma negative_in_every_order :
  let a := get2 close_PHI 0 0 in
  let b := get2 close_PHI 0 1 in
  Forall (fun s => PrimFloat.ltb s 0%float = true)
    (sums_in_any_order 3
       [a * 1%float * a; a * (-1)%float * b;
        b * (-1)%float * a; b * 1%float * b]%F).
Proof. cbv zeta. apply (bool_decide_unpack _). vm_compute. reflexivity. Qed.

(** C7 as stated fails in doubles.  The matrix [[1, -1], [-1, 1]] is positive
    semidefinite and its entries are doubles.  At a point where the two basis
    functions take neighbouring doubles [a] and [b], the products [a * a],
    [a * b] and [b * b] round so that [a * a - a * b - b * a + b * b], which
    is the square of [a - b] in exact arithmetic, comes out below zero in
    whatever order the four terms are added: the density the cell computes
    at that point is negative. *)
Lemma C7_counterexample :
  positive_semidefinite Qcle 2 (cancelling_D 1%Qc (- 1)%Qc) /\
  exists lD rho0,
    getitem_outer (cancelling_D 1%float (-1)%float) (np_array [0%Z; 1%Z])
    = Ok lD /\
    density_assembler close_PHI lD = Ok [rho0] /\
    PrimFloat.ltb rho0 0%float = true.
Proof.
  split; [exact cancelling_D_positive_semidefinite|].
  eexists _, _. split; [reflexivity|]. split; [vm_compute; reflexivity|].
  vm_compute. reflexivity.
Qed.

Lemma C5_single_block_matches_reference_witness :
  exists ns',
    xc_kernel toy_PHI toy_functional (single_block toy_block0) toy_D
    = Ok ns' /\
    V ns' =
    reference_V toy_functional 2 2 toy_D (toy_PHI toy_block0) (w toy_block0).
Proof.
  apply (@C5_single_block_matches_reference Qc Qc_scalar toy_PHI
           toy_functional 1%Qc Qc_exact_arithmetic 2 2 toy_D toy_block0).
  - lia.
  - exact toy_D_square.
  - reflexivity.
  - reflexivity.
  - reflexivity.
  - reflexivity.
  - reflexivity.
  - exact toy_per_point.
Defined.

(** * Further properties of the cell *)

(** ** Slices *)

Section Slices.
Context {F : Type} `{Scalar F}.
Implicit Types (M : ndarray2 F).

(** X2.  Slicing twice is slicing once, and a slice whose bounds reach the end
    of the array returns the array. *)
Theorem slice2_idempotent_and_whole M r c :
  slice2 (slice2 M r c) r c = slice2 M r c /\
  (wf2 M -> nrows M <= r -> ncols M <= c -> slice2 M r c = M).
Proof.
  split.
  - unfold slice2. simpl. f_equal; try lia.
    rewrite <- fmap_take, take_take, Nat.min_id.
    rewrite <- list_fmap_compose. apply list_fmap_ext. intros k row _. simpl.
    by rewrite take_take, Nat.min_id.
  - intros [Hlen Hrows] Hr Hc. destruct M as [nr nc rws]. simpl in *.
    unfold slice2. simpl. f_equal; try lia.
    rewrite take_ge by lia.
    rewrite <- (list_fmap_id rws) at 2.
    apply Forall_fmap_ext_1. eapply Forall_impl; [exact Hrows|].
    intros row Hrow. simpl in *. apply take_ge. lia.
Qed.

End Slices.

Lemma toy_PHI_wf block : wf2 (toy_PHI block).
Proof. split; [reflexivity|]. by repeat constructor. Qed.

Lemma slice2_idempotent_and_whole_witness :
  slice2 (slice2 (toy_PHI toy_block0) 2 1) 2 1 = slice2 (toy_PHI toy_block0) 2 1
  /\ slice2 (toy_PHI toy_block0) 2 2 = toy_PHI toy_block0.
Proof.
  split.
  - exact (proj1 (slice2_idempotent_and_whole (toy_PHI toy_block0) 2 1)).
  - apply (proj2 (slice2_idempotent_and_whole (toy_PHI toy_block0) 2 2)).
    + apply toy_PHI_wf.
    + simpl. lia.
    + simpl. lia.
Defined.

(** ** The gather and the scatter-add *)

Lemma normalize_index_invalid n i :
  ~ valid_index n i -> normalize_index n i = Raise IndexError.
Proof.
  unfold valid_index, normalize_index. intros Hi.
  repeat case_decide; try lia; done.
Qed.

Lemma mapM_normalize_invalid n (lpos : list Z) :
  ~ Forall (valid_index n) lpos ->
  mapM (normalize_index n) lpos = Raise IndexError.
Proof.
  induction lpos as [|i l IH]; intros Hn.
  - destruct Hn. constructor.
  - simpl. destruct (decide (valid_index n i)) as [Hi|Hi].
    + rewrite normalize_index_valid by done. simpl.
      rewrite IH; [done|]. intros Hl. apply Hn. by constructor.
    + by rewrite normalize_index_invalid.
Qed.

Lemma global_index_wrapped n i :
  valid_index n i ->
  global_index n (Z.of_nat (global_index n i)) = global_index n i.
Proof. unfold valid_index, global_index. repeat case_decide; lia. Qed.

Lemma wrapped_valid n (lpos : list Z) :
  Forall (valid_index n) lpos -> Forall (valid_index n) (wrapped n lpos).
Proof.
  intros Hv. unfold wrapped. rewrite <- list_fmap_compose.
  apply Forall_fmap. eapply Forall_impl; [exact Hv|].
  intros i Hi. simpl. pose proof (global_index_lt n i Hi).
  unfold valid_index. lia.
Qed.

Lemma wrapped_globals n (lpos : list Z) :
  Forall (valid_index n) lpos ->
  global_index n <$> wrapped n lpos = global_index n <$> lpos.
Proof.
  intros Hv. unfold wrapped. rewrite <- !list_fmap_compose.
  apply Forall_fmap_ext_1. eapply Forall_impl; [exact Hv|].
  intros i Hi. simpl. by apply global_index_wrapped.
Qed.

Lemma wrapped_nil n (lpos : list Z) : wrapped n lpos = [] <-> lpos = [].
Proof. unfold wrapped. by destruct lpos. Qed.

Section GatherScatter.
Context {F : Type} `{Scalar F}.
Variable basis_values_PHI : BlockOPoints F -> ndarray2 F.
Variable compute_functional : list F -> FunctionalValues F.
Implicit Types (ns : Namespace F) (block : BlockOPoints F) (M X : ndarray2 F).

(** X3.  An index outside [-n, n) for an axis of [D] makes the gather raise
    [IndexError], and with it the loop body, whatever the other data of the
    block are. *)
Theorem index_out_of_range_raises ns block :
  functions_local_to_global block <> [] ->
  ~ (Forall (valid_index (nrows (D ns))) (functions_local_to_global block) /\
     Forall (valid_index (ncols (D ns))) (functions_local_to_global block)) ->
  getitem_outer (D ns) (np_array (functions_local_to_global block))
  = Raise IndexError /\
  loop_body basis_values_PHI compute_functional ns block = Raise IndexError.
Proof.
  intros Hne Hbad.
  set (lpos := functions_local_to_global block) in *.
  assert (getitem_outer (D ns) (np_array lpos) = Raise IndexError) as Hget.
  { unfold getitem_outer. rewrite index_entries_np_array by done. simpl.
    destruct (decide (Forall (valid_index (nrows (D ns))) lpos)) as [Hr|Hr].
    - rewrite (mapM_normalize _ _ Hr). simpl.
      rewrite (mapM_normalize_invalid (ncols (D ns))); [done|].
      intros Hc. by apply Hbad.
    - by rewrite (mapM_normalize_invalid (nrows (D ns))). }
  split; [done|]. unfold loop_body. fold lpos. by rewrite Hget.
Qed.

(** X4.  A negative index is the position counted from the end: the gather
    and the scatter-add give the same result for an index list and for the
    list of the positions it names. *)
Theorem negative_indices_wrap n M X (lpos : list Z) :
  square n M -> Forall (valid_index n) lpos ->
  getitem_outer M (np_array (wrapped n lpos)) = getitem_outer M (np_array lpos)
  /\
  iadd_outer M (np_array (wrapped n lpos)) X = iadd_outer M (np_array lpos) X.
Proof.
  intros [Hr Hc] Hv.
  destruct lpos as [|i l]; [done|].
  set (lpos := i :: l) in *.
  assert (lpos <> []) as Hne by done.
  assert (wrapped n lpos <> []) as Hne' by done.
  pose proof (wrapped_valid n lpos Hv) as Hv'.
  unfold getitem_outer, iadd_outer.
  rewrite !index_entries_np_array by done. cbn [mbind result_bind].
  rewrite Hr, Hc.
  rewrite !(mapM_normalize n (wrapped n lpos)) by done.
  rewrite !(mapM_normalize n lpos) by done.
  cbn [mbind result_bind]. by rewrite !wrapped_globals.
Qed.

(** X5.  The local slice of a symmetric [D] is a well-formed symmetric array
    with one row and one column per index. *)
Theorem gather_of_symmetric_is_symmetric n M (lpos : list Z) lD :
  square n M ->
  (forall i j, i < n -> j < n -> get2 M i j = get2 M j i) ->
  getitem_outer M (np_array lpos) = Ok lD ->
  wf2 lD /\ square (length lpos) lD /\ transpose lD = lD.
Proof.
  intros [Hr Hc] Hsym HlD.
  pose proof (getitem_outer_inv _ _ _ HlD) as (Hne & Hvr & Hvc & HlDr & HlDc).
  destruct (getitem_outer_spec M lpos Hne Hvr Hvc)
    as (lD' & HlD' & _ & _ & Hget).
  rewrite HlD in HlD'. injection HlD' as <-.
  assert (wf2 lD) as Hwf.
  { unfold getitem_outer in HlD.
    rewrite index_entries_np_array in HlD by done. simpl in HlD.
    rewrite !mapM_normalize in HlD by done. simpl in HlD.
    injection HlD as <-. split; simpl.
    - by rewrite length_fmap.
    - apply Forall_fmap, Forall_forall. intros r _. simpl.
      by rewrite length_fmap. }
  split; [done|]. split; [done|].
  apply (symmetric_state_transpose (length lpos)).
  split; [done|]. split; [done|].
  intros a b Ha Hb. rewrite !Hget by done. rewrite Hr, Hc in *.
  apply Hsym; by apply get_ix_global_lt.
Qed.

(** X6.  The scatter-add is no accumulation: an entry of the array changes at
    most once.  Entry [(i, j)] receives the entry of [X] at the last
    positions of [i] and of [j] in the index list, and stays as it is when
    [i] or [j] is not in the list. *)
Theorem scatter_add_last_write_wins M (lpos : list Z) X M' i j :
  wf2 M ->
  iadd_outer M (np_array lpos) X = Ok M' ->
  get2 M' i j =
  match rindex (global_index (nrows M) <$> lpos) i,
        rindex (global_index (ncols M) <$> lpos) j with
  | Some a, Some b => (get2 M i j + bget2 X a b)%F
  | _, _ => get2 M i j
  end.
Proof. intros Hwf Hok. by apply (get2_iadd_outer M lpos X M'). Qed.

End GatherScatter.

Lemma toy_D_symmetric i j : i < 2 -> j < 2 -> get2 toy_D i j = get2 toy_D j i.
Proof.
  intros Hi Hj.
  destruct i as [|[|i]], j as [|[|j]]; try lia; reflexivity.
Qed.

Lemma index_out_of_range_raises_witness :
  getitem_outer (D (initial toy_D))
    (np_array (functions_local_to_global stray_block))
  = Raise IndexError /\
  loop_body toy_PHI toy_functional (initial toy_D) stray_block
  = Raise IndexError.
Proof.
  apply (index_out_of_range_raises toy_PHI toy_functional (initial toy_D)
           stray_block).
  - discriminate.
  - intros [Hr _]. simpl in Hr.
    apply Forall_cons in Hr as [_ Hr]. apply Forall_cons in Hr as [Hr _].
    unfold valid_index in Hr. simpl in Hr. lia.
Defined.

Lemma negative_indices_wrap_witness :
  getitem_outer toy_D (np_array (wrapped 2 [(-1)%Z; 0%Z]))
  = getitem_outer toy_D (np_array [(-1)%Z; 0%Z]) /\
  iadd_outer toy_D (np_array (wrapped 2 [(-1)%Z; 0%Z])) toy_X
  = iadd_outer toy_D (np_array [(-1)%Z; 0%Z]) toy_X.
Proof.
  apply (negative_indices_wrap 2 toy_D toy_X [(-1)%Z; 0%Z]).
  - exact toy_D_square.
  - repeat constructor; vm_compute; intros [=].
Defined.

Lemma gather_of_symmetric_is_symmetric_witness :
  exists lD,
    getitem_outer toy_D (np_array [1%Z; 0%Z]) = Ok lD /\
    wf2 lD /\ square 2 lD /\ transpose lD = lD.
Proof.
  eexists. split; [reflexivity|].
  apply (gather_of_symmetric_is_symmetric 2 toy_D [1%Z; 0%Z]).
  - exact toy_D_square.
  - exact toy_D_symmetric.
  - reflexivity.
Defined.

Lemma scatter_add_last_write_wins_witness :
  exists M',
    iadd_outer (zeros_like toy_D) (np_array twice_zero) toy_X = Ok M' /\
    get2 M' 0 0 = (get2 (zeros_like toy_D) 0 0 + bget2 toy_X 1 1)%F /\
    get2 M' 1 1 = get2 (zeros_like toy_D) 1 1.
Proof.
  eexists. split; [reflexivity|]. split.
  - apply (scatter_add_last_write_wins (zeros_like toy_D) twice_zero toy_X _
             0 0); [apply wf2_tabulate2 | reflexivity].
  - apply (scatter_add_last_write_wins (zeros_like toy_D) twice_zero toy_X _
             1 1); [apply wf2_tabulate2 | reflexivity].
Defined.

(** ** What a pass through the body keeps and when it fails *)

Lemma broadcast_dims_pair_mismatch a b :
  a <> b -> a <> 1 -> b <> 1 -> broadcast_dims [a; b] = Raise ValueError.
Proof.
  intros Hab Ha Hb. unfold broadcast_dims. simpl. unfold broadcast_dim.
  repeat (case_decide; simpl; try lia; try congruence).
Qed.

Section BodyFacts.
Context {F : Type} `{Scalar F}.
Variable basis_values_PHI : BlockOPoints F -> ndarray2 F.
Variable compute_functional : list F -> FunctionalValues F.
Implicit Types (ns : Namespace F) (block : BlockOPoints F) (M X : ndarray2 F).

Local Abbreviation body := (loop_body basis_values_PHI compute_functional).
Local Abbreviation run := (run_blocks basis_values_PHI compute_functional).

(** X7.  [V] keeps the shape [np.zeros_like(D)] gave it: after any number of
    blocks it is a well-formed array with the extents of [D], square or
    not. *)
Theorem V_keeps_shape_of_D (D0 : ndarray2 F) blocks ns' :
  run_blocks basis_values_PHI compute_functional (initial D0) blocks = Ok ns' ->
  wf2 (V ns') /\ nrows (V ns') = nrows D0 /\ ncols (V ns') = ncols D0.
Proof.
  assert (forall ns, wf2 (V ns) -> run ns blocks = Ok ns' ->
            wf2 (V ns') /\ nrows (V ns') = nrows (V ns)
            /\ ncols (V ns') = ncols (V ns)) as Hgen.
  { induction blocks as [|block rest IH]; intros ns Hwf; simpl.
    - by intros [= <-].
    - intros (ns1 & Hbody & Hrest)%bind_Ok.
      destruct (loop_body_frame _ _ _ _ _ Hwf Hbody) as (_ & Hwf1 & Hr1 & Hc1).
      destruct (IH ns1 Hwf1 Hrest) as (Hwf' & Hr' & Hc').
      split; [done|]. split; congruence. }
  intros Hrun. by apply (Hgen (initial D0) (wf2_initial D0)).
Qed.

(** X8.  A collocation buffer with fewer columns than the block has basis
    functions (and not exactly one column) makes the density contraction
    raise [ValueError]. *)
Theorem too_few_columns_raise ns block :
  let lpos := functions_local_to_global block in
  lpos <> [] ->
  Forall (valid_index (nrows (D ns))) lpos ->
  Forall (valid_index (ncols (D ns))) lpos ->
  ncols (basis_values_PHI block) < length lpos ->
  ncols (basis_values_PHI block) <> 1 -> length lpos <> 1 ->
  loop_body basis_values_PHI compute_functional ns block = Raise ValueError.
Proof.
  intros lpos Hne Hvr Hvc Hcols Hc1 HL1.
  destruct (getitem_outer_spec (D ns) lpos Hne Hvr Hvc)
    as (lD & HlD & HlDr & HlDc & _).
  unfold loop_body. fold lpos. rewrite HlD. cbn [mbind result_bind].
  unfold density_assembler, einsum_pm_mn_pn_p, shape0. simpl.
  rewrite broadcast_dims_pair. cbn [mbind result_bind].
  rewrite HlDr, HlDc, !broadcast_dims_pair_mismatch by lia.
  reflexivity.
Qed.

(** X9.  A weight vector whose length is not the number of points for which
    the functional returned an energy density makes [einsum('a,a->')] raise
    [ValueError]: the energy of the block is not formed. *)
Theorem weight_count_mismatch_raises ns block :
  let lpos := functions_local_to_global block in
  lpos <> [] ->
  Forall (valid_index (nrows (D ns))) lpos ->
  Forall (valid_index (ncols (D ns))) lpos ->
  length lpos <= ncols (basis_values_PHI block) ->
  npoints block <= nrows (basis_values_PHI block) ->
  functional_per_point compute_functional ->
  length (w block) <> npoints block ->
  length (w block) <> 1 -> npoints block <> 1 ->
  loop_body basis_values_PHI compute_functional ns block = Raise ValueError.
Proof.
  intros lpos Hne Hvr Hvc Hcols Hrows Hfun Hw Hw1 HP1.
  destruct (getitem_outer_spec (D ns) lpos Hne Hvr Hvc)
    as (lD & HlD & HlDr & HlDc & _).
  unfold loop_body, shape0. fold lpos.
  change (ix_data (np_array lpos)) with lpos.
  rewrite HlD. cbn [mbind result_bind].
  set (P := npoints block) in *.
  set (phi := slice2 (basis_values_PHI block) P (length lpos)).
  assert (nrows phi = P) as HnP by (simpl; lia).
  assert (ncols phi = length lpos) as HnL by (simpl; lia).
  rewrite (density_assembler_spec P (length lpos)) by done.
  cbn [mbind result_bind].
  set (rho := tabulate1 P _).
  destruct (Hfun rho) as [HfV _].
  unfold rho in HfV at 1. rewrite length_tabulate1 in HfV.
  unfold einsum_a_a. rewrite length_slice1.
  rewrite broadcast_dims_pair_mismatch by lia. reflexivity.
Qed.

Lemma iadd_outer_Raise_shape M M2 (lpos : index_array) X e :
  nrows M2 = nrows M -> ncols M2 = ncols M ->
  iadd_outer M lpos X = Raise e -> iadd_outer M2 lpos X = Raise e.
Proof.
  intros Hr Hc. unfold iadd_outer. rewrite Hr, Hc.
  destruct (index_entries lpos) as [l|]; simpl; [|done].
  destruct (mapM (normalize_index (nrows M)) l) as [rs|]; simpl; [|done].
  destruct (mapM (normalize_index (ncols M)) l) as [cs|]; simpl; [|done].
  destruct (inplace_dim _ (nrows X)); simpl; [|done].
  destruct (inplace_dim _ (ncols X)); simpl; done.
Qed.

(** X11.  Whether a block raises, and what, is decided by [D], the block and
    the shape of [V]; the numbers accumulated so far in [V] and [xc_e] have
    no part in it. *)
Theorem exception_ignores_accumulated_values ns ns2 block e :
  D ns2 = D ns ->
  nrows (V ns2) = nrows (V ns) -> ncols (V ns2) = ncols (V ns) ->
  loop_body basis_values_PHI compute_functional ns block = Raise e ->
  loop_body basis_values_PHI compute_functional ns2 block = Raise e.
Proof.
  intros HD Hr Hc. rewrite !loop_body_delta, HD.
  destruct (block_delta _ _ _ _) as [[e0 X]|e0]; simpl; [|done].
  destruct (iadd_outer (V ns) _ X) as [V'|e1] eqn:HV; simpl; [done|].
  intros [= <-]. by rewrite (iadd_outer_Raise_shape (V ns) (V ns2) _ X e1).
Qed.

End BodyFacts.

Lemma V_keeps_shape_of_D_witness :
  exists ns',
    run_blocks toy_PHI toy_functional (initial toy_D) (blocks_of toy_Vpot)
    = Ok ns' /\
    wf2 (V ns') /\ nrows (V ns') = nrows toy_D /\ ncols (V ns') = ncols toy_D.
Proof.
  eexists. split; [reflexivity|].
  apply (V_keeps_shape_of_D toy_PHI toy_functional toy_D
           (blocks_of toy_Vpot)).
  reflexivity.
Defined.

Lemma too_few_columns_raise_witness :
  loop_body toy_PHI toy_functional (initial toy_D) three_block
  = Raise ValueError.
Proof.
  apply (too_few_columns_raise toy_PHI toy_functional (initial toy_D)
           three_block).
  - discriminate.
  - repeat constructor; vm_compute; intros [=].
  - repeat constructor; vm_compute; intros [=].
  - simpl. lia.
  - simpl. lia.
  - simpl. lia.
Defined.

Lemma weight_count_mismatch_raises_witness :
  loop_body toy_PHI toy_functional (initial toy_D) heavy_block
  = Raise ValueError.
Proof.
  apply (weight_count_mismatch_raises toy_PHI toy_functional (initial toy_D)
           heavy_block).
  - discriminate.
  - repeat constructor; vm_compute; intros [=].
  - repeat constructor; vm_compute; intros [=].
  - simpl. lia.
  - simpl. lia.
  - exact toy_per_point.
  - simpl. lia.
  - simpl. lia.
  - simpl. lia.
Defined.

Lemma exception_ignores_accumulated_values_witness :
  exists ns2,
    run_blocks toy_PHI toy_functional (initial toy_D) [toy_block0] = Ok ns2 /\
    loop_body toy_PHI toy_functional ns2 stray_block = Raise IndexError.
Proof.
  eexists. split; [reflexivity|].
  apply (exception_ignores_accumulated_values toy_PHI toy_functional
           (initial toy_D) _ stray_block IndexError); reflexivity.
Defined.

(** ** Over exact arithmetic *)

Section ExactFacts.
Context {F : Type} `{Scalar F}.
Variable basis_values_PHI : BlockOPoints F -> ndarray2 F.
Variable compute_functional : list F -> FunctionalValues F.
Variable one : F.
Hypothesis EA : exact_arithmetic one.
Implicit Types (ns : Namespace F) (block : BlockOPoints F) (M X : ndarray2 F).

Add Ring F_semiring'' : (ea_semiring one EA).

Local Abbreviation run := (run_blocks basis_values_PHI compute_functional).
Local Abbreviation update_of :=
  (block_update basis_values_PHI compute_functional).
Local Abbreviation energy_of :=
  (block_energy basis_values_PHI compute_functional).

Lemma scale2_tabulate2 c nr nc (f : nat -> nat -> F) :
  scale2 c (tabulate2 nr nc f) = tabulate2 nr nc (fun i j => c * f i j)%F.
Proof.
  unfold scale2, tabulate2, scale1. simpl. f_equal.
  rewrite <- list_fmap_compose. apply list_fmap_ext. intros k i _. simpl.
  by rewrite <- list_fmap_compose.
Qed.

(** X12.  Over exact arithmetic [Vtmp] is symmetric already, so
    [0.5 * (Vtmp + Vtmp.T)] is [Vtmp] and the accumulator adds [Vtmp]
    itself. *)
Theorem symmetrisation_changes_nothing_when_exact V0 (lpos : index_array)
    (phi : ndarray2 F) (v_rho_a w0 : list F) Vtmp :
  einsum_pb_p_p_pa_ab phi v_rho_a w0 phi = Ok Vtmp ->
  transpose Vtmp = Vtmp /\
  matrix_accumulator V0 lpos phi v_rho_a w0 = iadd_outer V0 lpos Vtmp.
Proof.
  intros HV. unfold matrix_accumulator. rewrite HV. cbn [mbind result_bind].
  unfold einsum_pb_p_p_pa_ab in HV.
  apply bind_Ok in HV as (P & _ & [= <-]).
  set (L := ncols phi).
  set (g := fun a b => sum_upto P (fun p =>
    bget2 phi p b * bget1 v_rho_a p * bget1 w0 p * bget2 phi p a)%F).
  assert (forall a b, g a b = g b a) as Hg.
  { intros a b. unfold g. apply sum_upto_ext. intros p _. ring. }
  assert (transpose (tabulate2 L L g) = tabulate2 L L g) as Ht.
  { unfold transpose. simpl. apply tabulate2_ext. intros i j Hi Hj.
    by rewrite get2_tabulate2, Hg by done. }
  split; [exact Ht|].
  rewrite symmetrise_spec. cbn [mbind result_bind].
  rewrite scale2_tabulate2. f_equal.
  apply tabulate2_ext. intros a b _ _.
  by rewrite <- (Hg a b), (half_double one EA).
Qed.

Lemma foldl_update_shift n D0 blocks i j (y : F) :
  foldl (fun x block => update_of n D0 block i j x) y blocks =
  (y + foldl (fun x block => update_of n D0 block i j x) f_zero blocks)%F.
Proof.
  revert y. induction blocks as [|block rest IH]; intros y; simpl.
  - ring.
  - rewrite IH. rewrite (IH (update_of n D0 block i j f_zero)).
    unfold block_update.
    destruct (rindex (block_globals n block) i),
      (rindex (block_globals n block) j); ring.
Qed.

Lemma foldl_energy_shift n D0 blocks (y : F) :
  foldl (fun acc block => acc + energy_of n D0 block)%F y blocks =
  (y + foldl (fun acc block => acc + energy_of n D0 block)%F f_zero blocks)%F.
Proof.
  revert y. induction blocks as [|block rest IH]; intros y; simpl.
  - ring.
  - rewrite IH. rewrite (IH (f_zero + _)%F). ring.
Qed.

(** X13.  The loop can be split: over exact arithmetic, the matrix and the
    energy of a run over [blocks1 ++ blocks2] are the entrywise sum and the
    sum of what two runs, each started afresh from [zeros_like(D)] and [0.0],
    give for [blocks1] and for [blocks2]. *)
Theorem partial_runs_add_up (n : nat) (D0 : ndarray2 F) blocks1 blocks2 :
  square n D0 ->
  Forall (block_consistent basis_values_PHI n) blocks1 ->
  Forall (block_consistent basis_values_PHI n) blocks2 ->
  functional_per_point compute_functional ->
  exists ns1 ns2 ns,
    run_blocks basis_values_PHI compute_functional (initial D0) blocks1
    = Ok ns1 /\
    run_blocks basis_values_PHI compute_functional (initial D0) blocks2
    = Ok ns2 /\
    run_blocks basis_values_PHI compute_functional (initial D0)
      (blocks1 ++ blocks2) = Ok ns /\
    xc_e ns = (xc_e ns1 + xc_e ns2)%F /\
    forall i j, i < n -> j < n ->
      get2 (V ns) i j = (get2 (V ns1) i j + get2 (V ns2) i j)%F.
Proof.
  intros HD Hb1 Hb2 Hfun.
  assert (square n (V (initial D0))) as HV by (destruct HD; by split).
  destruct (run_blocks_consistent basis_values_PHI compute_functional
              n (initial D0) blocks1 HD HV (wf2_initial D0) Hb1 Hfun)
    as (ns1 & Hrun1 & _ & _ & _ & Hget1 & He1).
  destruct (run_blocks_consistent basis_values_PHI compute_functional
              n (initial D0) blocks2 HD HV (wf2_initial D0) Hb2 Hfun)
    as (ns2 & Hrun2 & _ & _ & _ & Hget2 & He2).
  destruct (run_blocks_consistent basis_values_PHI compute_functional
              n (initial D0) (blocks1 ++ blocks2) HD HV (wf2_initial D0))
    as (ns & Hrun & _ & _ & _ & Hget & He);
    [by apply Forall_app | done |].
  exists ns1, ns2, ns. split; [done|]. split; [done|]. split; [done|].
  simpl in *. split.
  - rewrite He, He1, He2, foldl_app, foldl_energy_shift. done.
  - intros i j Hi Hj.
    rewrite Hget, Hget1, Hget2, foldl_app, foldl_update_shift by done.
    f_equal. destruct HD as [HDr HDc]. unfold zeros_like.
    rewrite HDr, HDc, get2_tabulate2 by done. done.
Qed.

End ExactFacts.

Lemma symmetrisation_changes_nothing_when_exact_witness :
  exists Vtmp,
    einsum_pb_p_p_pa_ab (toy_PHI toy_block0) [1%Qc; 1%Qc] [1%Qc; 1%Qc]
      (toy_PHI toy_block0) = Ok Vtmp /\
    transpose Vtmp = Vtmp /\
    matrix_accumulator (zeros_like toy_D) (np_array [0%Z; 1%Z])
      (toy_PHI toy_block0) [1%Qc; 1%Qc] [1%Qc; 1%Qc]
    = iadd_outer (zeros_like toy_D) (np_array [0%Z; 1%Z]) Vtmp.
Proof.
  eexists. split; [reflexivity|].
  apply (@symmetrisation_changes_nothing_when_exact Qc Qc_scalar 1%Qc
           Qc_exact_arithmetic).
  reflexivity.
Defined.

Lemma partial_runs_add_up_witness :
  exists ns1 ns2 ns,
    run_blocks toy_PHI toy_functional (initial toy_D) [toy_block0] = Ok ns1 /\
    run_blocks toy_PHI toy_functional (initial toy_D) [toy_block1] = Ok ns2 /\
    run_blocks toy_PHI toy_functional (initial toy_D)
      ([toy_block0] ++ [toy_block1]) = Ok ns /\
    xc_e ns = (xc_e ns1 + xc_e ns2)%F /\
    forall i j, i < 2 -> j < 2 ->
      get2 (V ns) i j = (get2 (V ns1) i j + get2 (V ns2) i j)%F.
Proof.
  apply (@partial_runs_add_up Qc Qc_scalar toy_PHI toy_functional 1%Qc
           Qc_exact_arithmetic 2 toy_D [toy_block0] [toy_block1]).
  - exact toy_D_square.
  - exact (Forall_cons_2 _ _ _ toy_block0_consistent (Forall_nil_2 _)).
  - exact (Forall_inv_tail toy_consistent).
  - exact toy_per_point.
Defined.

(** ** Locality and sparsity *)

Section Locality.
Context {F : Type} `{Scalar F}.
Variable basis_values_PHI : BlockOPoints F -> ndarray2 F.
Variable compute_functional : list F -> FunctionalValues F.
Implicit Types (ns : Namespace F) (block : BlockOPoints F) (M X : ndarray2 F).

Local Abbreviation body := (loop_body basis_values_PHI compute_functional).
Local Abbreviation run := (run_blocks basis_values_PHI compute_functional).
Local Abbreviation delta := (block_delta basis_values_PHI compute_functional).
Local Abbreviation update_of :=
  (block_update basis_values_PHI compute_functional).

Lemma get2_outside M i j :
  wf2 M -> nrows M <= i \/ ncols M <= j -> get2 M i j = f_zero.
Proof.
  intros [Hlen Hrows] Hij. unfold get2.
  destruct (rows M !! i) as [r|] eqn:Hr; simpl; [|done].
  assert (length r = ncols M) as Hlr.
  { eapply (Forall_lookup_1 _ _ _ _ Hrows Hr). }
  apply lookup_lt_Some in Hr as Hi.
  rewrite lookup_ge_None_2; [done|lia].
Qed.

Lemma getitem_outer_local M M1 (lpos : list Z) :
  nrows M1 = nrows M -> ncols M1 = ncols M ->
  (forall i j,
     i ∈ (global_index (nrows M) <$> lpos) ->
     j ∈ (global_index (ncols M) <$> lpos) ->
     get2 M1 i j = get2 M i j) ->
  getitem_outer M1 (np_array lpos) = getitem_outer M (np_array lpos).
Proof.
  intros Hr Hc Hget. unfold getitem_outer. rewrite Hr, Hc.
  destruct (index_entries (np_array lpos)) as [l|] eqn:Hl;
    cbn [mbind result_bind]; [|done].
  apply index_entries_np_array_Ok in Hl as [_ ->].
  destruct (mapM (normalize_index (nrows M)) lpos) as [rs|] eqn:Hrs;
    cbn [mbind result_bind]; [|done].
  destruct (mapM (normalize_index (ncols M)) lpos) as [cs|] eqn:Hcs;
    cbn [mbind result_bind]; [|done].
  apply mapM_normalize_Ok in Hrs as [_ ->].
  apply mapM_normalize_Ok in Hcs as [_ ->].
  do 2 f_equal.
  apply list_fmap_ext. intros a r Hr'.
  apply list_fmap_ext. intros b c Hc'.
  apply Hget; by eapply list_elem_of_lookup_2.
Qed.

(** X15.  A pass reads [D] at the entries its index list names and nowhere
    else: two density matrices of one shape that agree at those entries make
    the body raise the same exception or add the same energy and leave the
    same [V]. *)
Theorem body_reads_named_entries_only ns ns1 block :
  nrows (D ns1) = nrows (D ns) -> ncols (D ns1) = ncols (D ns) ->
  (forall i j,
     i ∈ (global_index (nrows (D ns)) <$> functions_local_to_global block) ->
     j ∈ (global_index (ncols (D ns)) <$> functions_local_to_global block) ->
     get2 (D ns1) i j = get2 (D ns) i j) ->
  V ns1 = V ns -> xc_e ns1 = xc_e ns ->
  V <$> loop_body basis_values_PHI compute_functional ns1 block
  = V <$> loop_body basis_values_PHI compute_functional ns block /\
  xc_e <$> loop_body basis_values_PHI compute_functional ns1 block
  = xc_e <$> loop_body basis_values_PHI compute_functional ns block.
Proof.
  intros Hr Hc Hget HV He.
  assert (delta (D ns1) block = delta (D ns) block) as Hd.
  { unfold block_delta.
    by rewrite (getitem_outer_local (D ns) (D ns1)). }
  rewrite !loop_body_delta, Hd, HV, He.
  destruct (delta (D ns) block) as [eX|]; cbn [mbind result_bind fmap
    result_fmap]; [|done].
  destruct (iadd_outer _ _ _); done.
Qed.

Lemma foldl_update_unnamed n D0 blocks i j (y : F) :
  Forall (fun block =>
    i ∉ block_globals n block \/ j ∉ block_globals n block) blocks ->
  foldl (fun x block => update_of n D0 block i j x) y blocks = y.
Proof.
  intros Hb. revert y. induction Hb as [|block rest Hb _ IH]; intros y;
    simpl; [done|].
  rewrite IH. unfold block_update.
  destruct Hb as [Hi|Hj].
  - by rewrite (rindex_not_elem _ _ Hi).
  - rewrite (rindex_not_elem _ _ Hj). by destruct (rindex _ i).
Qed.

(** X16.  [V] stays zero wherever no block touches it: after the loop, an
    entry [(i, j)] that no block names both the row and the column of still
    holds the zero [np.zeros_like] put there. *)
Theorem V_zero_where_no_block_writes (n : nat) (D0 : ndarray2 F) blocks
    (i j : nat) :
  square n D0 ->
  Forall (block_consistent basis_values_PHI n) blocks ->
  functional_per_point compute_functional ->
  Forall (fun block =>
    i ∉ block_globals n block \/ j ∉ block_globals n block) blocks ->
  exists ns',
    run_blocks basis_values_PHI compute_functional (initial D0) blocks
    = Ok ns' /\
    get2 (V ns') i j = f_zero.
Proof.
  intros HD Hb Hfun Hno.
  assert (square n (V (initial D0))) as HV by (destruct HD; by split).
  destruct (run_blocks_consistent basis_values_PHI compute_functional
              n (initial D0) blocks HD HV (wf2_initial D0) Hb Hfun)
    as (ns' & Hrun & _ & [HVr HVc] & Hwf & Hget & _).
  exists ns'. split; [done|].
  destruct (decide (i < n)) as [Hi|Hi];
    [destruct (decide (j < n)) as [Hj|Hj]|].
  - rewrite Hget, foldl_update_unnamed by done. simpl.
    destruct HD as [HDr HDc]. unfold zeros_like.
    by rewrite HDr, HDc, get2_tabulate2.
  - apply get2_outside; [done|lia].
  - apply get2_outside; [done|lia].
Qed.

End Locality.

Lemma body_reads_named_entries_only_witness :
  V <$> loop_body toy_PHI toy_functional (initial other_D) toy_block1
  = V <$> loop_body toy_PHI toy_functional (initial toy_D) toy_block1 /\
  xc_e <$> loop_body toy_PHI toy_functional (initial other_D) toy_block1
  = xc_e <$> loop_body toy_PHI toy_functional (initial toy_D) toy_block1.
Proof.
  apply (body_reads_named_entries_only toy_PHI toy_functional
           (initial toy_D) (initial other_D) toy_block1).
  - reflexivity.
  - reflexivity.
  - intros i j Hi Hj.
    inversion Hi as [|? ? ? Hi']; [|inversion Hi'].
    inversion Hj as [|? ? ? Hj']; [|inversion Hj'].
    reflexivity.
  - reflexivity.
  - reflexivity.
Defined.

Lemma V_zero_where_no_block_writes_witness :
  exists ns',
    run_blocks toy_PHI toy_functional (initial toy_D) [toy_block1] = Ok ns' /\
    get2 (V ns') 0 1 = f_zero.
Proof.
  apply (V_zero_where_no_block_writes toy_PHI toy_functional 2 toy_D
           [toy_block1] 0 1).
  - exact toy_D_square.
  - exact (Forall_inv_tail toy_consistent).
  - exact toy_per_point.
  - apply (bool_decide_unpack _). by vm_compute.
Defined.
